(** * list.h -- the generic singly linked list, embedded over an explicit heap

    The C header generates, for an element type [T], the structs
    [LinkedList_T_Node] and [LinkedList_T] and the functions
    [LinkedList_T_new], [_make], [_append], [_free], [_len], [_get] and
    [_delete].  Every function is translated below as a function on a
    program state: a heap of allocated objects, addressed by numbers,
    together with the answers [malloc] is going to give.  Pointers are
    [option loc], [None] being [NULL]; [size_t] values are numbers below
    [2 ^ size_bits] and [++] on them wraps around; a call whose behaviour C
    leaves undefined (a [NULL] or dangling dereference) or that never
    returns has result [None].  The element types meant are those on which
    [==] is equality, integers and the like: [delete] compares with
    [decide (v = value)]. *)

From stdpp Require Import base option numbers list gmap.

(** ** Addresses, pointers and the platform *)

Abbreviation loc := N (only parsing).
Abbreviation ptr := (option loc) (only parsing).

(** The width of [size_t], and of an address, on the platform at hand. *)
Class Platform := { size_bits : N }.

(** The common 64-bit data model, used by the concrete examples. *)
Definition LP64 : Platform := {| size_bits := 64 |}.

(** The unnamed enum of list.h. *)
Definition GOT_OK : Z := 0.
Definition GOT_OUT_OF_BOUNDS : Z := 1.
Definition GOT_EMPTY_LIST : Z := 2.

(** ** Objects and program states *)

Inductive obj (T : Type) : Type :=
  | ONode (value : T) (next : ptr)   (* struct LinkedList_T_Node *)
  | OList (head : ptr)               (* struct LinkedList_T *)
  | OVar (contents : option T).      (* a variable of type T; None: not yet assigned *)

Arguments ONode {T} value next.
Arguments OList {T} head.
Arguments OVar {T} contents.

(** [oracle] lists what the coming calls of [malloc] return, in order; once
    it is used up [malloc] returns [NULL]. *)
Record state (T : Type) : Type := State {
  heap : gmap loc (obj T);
  oracle : list ptr
}.

(** The nodes of a list in order, each by its address and its value. *)
Abbreviation nodes T := (list (loc * T)) (only parsing).

Arguments State {T} heap oracle.
Arguments heap {T} s.
Arguments oracle {T} s.

Section Operations.
Context {PF : Platform} {T : Type} `{EqDecision T}.

Local Abbreviation obj := (obj T).
Local Abbreviation state := (state T).

(** [++x] on a [size_t]. *)
Definition size_succ (x : N) : N := ((x + 1) mod 2 ^ size_bits)%N.

Definition set_heap (h : gmap loc obj) (st : state) : state :=
  State h (oracle st).

(** [malloc]: the next answer of the oracle. *)
Definition malloc (st : state) : ptr * state :=
  match oracle st with
  | [] => (None, st)
  | a :: o => (a, State (heap st) o)
  end.

(** [free(p)]: nothing happens for [NULL]; freeing what is not allocated is
    undefined. *)
Definition free (p : ptr) (st : state) : option state :=
  match p with
  | None => Some st
  | Some l =>
      match heap st !! l with
      | Some _ => Some (set_heap (delete l (heap st)) st)
      | None => None
      end
  end.

(** [p->value] *)
Definition get_value (p : ptr) (st : state) : option T :=
  l ← p;
  match heap st !! l with
  | Some (ONode v _) => Some v
  | _ => None
  end.

(** [p->next] *)
Definition get_next (p : ptr) (st : state) : option ptr :=
  l ← p;
  match heap st !! l with
  | Some (ONode _ n) => Some n
  | _ => None
  end.

(** [p->next = n] *)
Definition set_next (p n : ptr) (st : state) : option state :=
  l ← p;
  match heap st !! l with
  | Some (ONode v _) => Some (set_heap (<[l := ONode v n]> (heap st)) st)
  | _ => None
  end.

(** [list->head] *)
Definition get_head (list : ptr) (st : state) : option ptr :=
  l ← list;
  match heap st !! l with
  | Some (OList hd) => Some hd
  | _ => None
  end.

(** [list->head = n] *)
Definition set_head (list n : ptr) (st : state) : option state :=
  l ← list;
  match heap st !! l with
  | Some (OList _) => Some (set_heap (<[l := OList n]> (heap st)) st)
  | _ => None
  end.

(** [*result = v] *)
Definition store_var (result : ptr) (v : T) (st : state) : option state :=
  l ← result;
  match heap st !! l with
  | Some (OVar _) => Some (set_heap (<[l := OVar (Some v)]> (heap st)) st)
  | _ => None
  end.

(** Reading a variable; reading one that was never assigned is undefined. *)
Definition load_var (p : ptr) (st : state) : option T :=
  l ← p;
  match heap st !! l with
  | Some (OVar (Some v)) => Some v
  | _ => None
  end.

(** A walk along [next] pointers visits a new object at every step or has
    entered a cycle; so a loop that has not ended after one step more than
    there are objects in the heap never ends. *)
Definition fuel (st : state) : nat := S (size (heap st)).

(** [LinkedList_T_new] *)
Definition LinkedList_new (value : T) (st : state) : ptr * state :=
  let '(newNode, st1) := malloc st in
  match newNode with
  | None => (None, st1)
  | Some l => (Some l, set_heap (<[l := ONode value None]> (heap st1)) st1)
  end.

(** [LinkedList_T_make] *)
Definition LinkedList_make (st : state) : ptr * state :=
  let '(list, st1) := malloc st in
  match list with
  | None => (None, st1)
  | Some l => (Some l, set_heap (<[l := OList None]> (heap st1)) st1)
  end.

(** The loop of [LinkedList_T_free], from the state in which [current] is
    about to be tested. *)
Fixpoint free_loop (n : nat) (current : ptr) (st : state) : option state :=
  match n with
  | O => None
  | S n' =>
      match current with
      | None => Some st
      | Some _ =>
          next ← get_next current st;
          st1 ← free current st;
          free_loop n' next st1
      end
  end.

(** [LinkedList_T_free] *)
Definition LinkedList_free (list : ptr) (st : state) : option (unit * state) :=
  current ← get_head list st;
  st1 ← free_loop (fuel st) current st;
  st2 ← free list st1;
  Some (tt, st2).

(** The loop of [LinkedList_T_append]: the last node of the chain that
    starts at [current]. *)
Fixpoint append_loop (n : nat) (current : ptr) (st : state) : option ptr :=
  match n with
  | O => None
  | S n' =>
      next ← get_next current st;
      match next with
      | None => Some current
      | Some _ => append_loop n' next st
      end
  end.

(** [LinkedList_T_append] *)
Definition LinkedList_append (value : T) (list : ptr) (st : state)
  : option (unit * state) :=
  hd ← get_head list st;
  match hd with
  | None =>
      let '(newNode, st1) := LinkedList_new value st in
      st2 ← set_head list newNode st1;
      Some (tt, st2)
  | Some _ =>
      current ← append_loop (fuel st) hd st;
      let '(newNode, st1) := LinkedList_new value st in
      st2 ← set_next current newNode st1;
      Some (tt, st2)
  end.

(** The loop of [LinkedList_T_delete]. *)
Fixpoint delete_loop (n : nat) (value : T) (list current previous : ptr)
    (st : state) : option (Z * state) :=
  match n with
  | O => None
  | S n' =>
      match current with
      | None => Some (1%Z, st)
      | Some _ =>
          v ← get_value current st;
          if decide (v = value) then
            next ← get_next current st;
            st1 ← set_next previous next st;
            hd ← get_head list st1;
            st2 ← (if decide (current = hd) then
                     next' ← get_next current st1;
                     set_head list next' st1
                   else Some st1);
            st3 ← free current st2;
            Some (0%Z, st3)
          else
            next ← get_next current st;
            delete_loop n' value list next current st
      end
  end.

(** [LinkedList_T_delete] *)
Definition LinkedList_delete (value : T) (list : ptr) (st : state)
  : option (Z * state) :=
  current ← get_head list st;
  delete_loop (fuel st) value list current current st.

(** The loop of [LinkedList_T_len]. *)
Fixpoint len_loop (n : nat) (current : ptr) (len : N) (st : state) : option N :=
  match n with
  | O => None
  | S n' =>
      match current with
      | None => Some len
      | Some _ =>
          next ← get_next current st;
          len_loop n' next (size_succ len) st
      end
  end.

(** [LinkedList_T_len] *)
Definition LinkedList_len (list : ptr) (st : state) : option N :=
  current ← get_head list st;
  len_loop (fuel st) current 0%N st.

(** The loop of [LinkedList_T_get]; its body runs at most [index] times. *)
Fixpoint get_loop (n : nat) (i index : N) (current : ptr) (st : state)
  : option ptr :=
  match n with
  | O => None
  | S n' =>
      if decide (i < index)%N then
        next ← get_next current st;
        get_loop n' (size_succ i) index next st
      else Some current
  end.

(** [LinkedList_T_get] *)
Definition LinkedList_get (index : N) (list result : ptr) (st : state)
  : option (Z * state) :=
  current ← get_head list st;
  len ← LinkedList_len list st;
  if decide (len = 0%N) then Some (GOT_EMPTY_LIST, st)
  else if decide (len ≤ index)%N then Some (GOT_OUT_OF_BOUNDS, st)
  else
    current' ← get_loop (S (N.to_nat index)) 0%N index current st;
    v ← get_value current' st;
    st1 ← store_var result v st;
    Some (GOT_OK, st1).

End Operations.

Arguments free : simpl never.
Arguments get_value : simpl never.
Arguments get_next : simpl never.
Arguments set_next : simpl never.
Arguments get_head : simpl never.
Arguments set_head : simpl never.
Arguments store_var : simpl never.
Arguments load_var : simpl never.
Arguments size_succ : simpl never.
Arguments fuel : simpl never.

(** ** The demonstration caller, main.c

    [MAKE_LIST_OF(int)]: the element type is [int].  [main] prints two
    numbers, returned here in order; [fst_elem] is where the local variable
    of that name lives, from the entry of [main] to its end, and reading it
    before it is assigned is undefined. *)

(** [int x;] at address [x]. *)

Definition declare (x : loc) (st : state Z) : state Z :=
  set_heap (<[x := OVar None]> (heap st)) st.

Definition main {PF : Platform} (fst_elem : loc) (st : state Z)
  : option (list Z * state Z) :=
  let st := declare fst_elem st in
  let '(ll, st) := LinkedList_make st in
  '(_, st) ← LinkedList_append 12%Z ll st;
  '(r, st) ← LinkedList_get 0%N ll (Some fst_elem) st;
  v ← load_var (Some fst_elem) st;
  '(_, st) ← LinkedList_free ll st;
  Some ([r; v], set_heap (delete fst_elem (heap st)) st).

(** ** States used as examples

    Addresses 1 to 5 on a 64-bit platform, elements of type [int]; the
    variable at 9 is the caller's, for the result of [get]. *)

(** No list yet; the next four allocations succeed. *)
Definition st_fresh : state Z :=
  State {[9%N := OVar None]} [Some 1%N; Some 2%N; Some 3%N; Some 4%N].

(** The list [10, 20, 30]. *)
Definition st_abc : state Z :=
  State {[1%N := OList (Some 2%N); 2%N := ONode 10%Z (Some 3%N);
          3%N := ONode 20%Z (Some 4%N); 4%N := ONode 30%Z None;
          9%N := OVar None]} [Some 5%N].

(** The list [10, 20, 10]. *)
Definition st_aba : state Z :=
  State {[1%N := OList (Some 2%N); 2%N := ONode 10%Z (Some 3%N);
          3%N := ONode 20%Z (Some 4%N); 4%N := ONode 10%Z None;
          9%N := OVar None]} [Some 5%N].

(** The list [10, 20, 30] when memory is exhausted. *)
Definition st_oom : state Z := State (heap st_abc) [None].

(** An empty list. *)
Definition st_nil : state Z :=
  State {[1%N := OList None; 9%N := OVar None]} [Some 5%N].

(** Nothing allocated; the next two allocations succeed. *)
Definition st_start : state Z := State ∅ [Some 1%N; Some 2%N].

(** No list yet; one allocation succeeds and memory is then exhausted. *)
Definition st_one_alloc : state Z := State {[9%N := OVar None]} [Some 1%N].

(** Nothing allocated; the first allocation fails. *)
Definition st_no_alloc : state Z := State ∅ [None; Some 1%N].

(** Two lists that share no node: [10] at 1 and [50, 60] at 6. *)
Definition st_two : state Z :=
  State {[1%N := OList (Some 2%N); 2%N := ONode 10%Z None;
          6%N := OList (Some 7%N); 7%N := ONode 50%Z (Some 8%N);
          8%N := ONode 60%Z None; 9%N := OVar None]} [Some 5%N].

(** A list struct whose two nodes point to each other. *)
Definition st_loop : state Z :=
  State {[1%N := OList (Some 2%N); 2%N := ONode 7%Z (Some 3%N);
          3%N := ONode 8%Z (Some 2%N)]} [].

(** ** What a state holds: the specification vocabulary *)

Section Representation.
Context {PF : Platform} {T : Type}.

Local Abbreviation obj := (obj T).
Local Abbreviation state := (state T).

(** An address a pointer can hold: not the one of [NULL], and in range. *)
Definition valid_addr (l : loc) : Prop := (0 < l < 2 ^ size_bits)%N.

(** Every allocated object lies at such an address. *)
Definition heap_ok (h : gmap loc obj) : Prop :=
  map_Forall (λ l _, valid_addr l) h.

#[global] Instance valid_addr_dec l : Decision (valid_addr l).
Proof. unfold valid_addr. apply _. Defined.

#[global] Instance heap_ok_dec h : Decision (heap_ok h).
Proof. unfold heap_ok. apply _. Defined.

(** The pointer to the first node of a sequence of nodes, each given by its
    address and its value. *)
Definition first_node (ns : nodes T) : ptr :=
  match ns with
  | [] => None
  | (l, _) :: _ => Some l
  end.

(** [chain h ns]: in [h], every node of [ns] holds its value and points to
    the node after it, the last one to [NULL]. *)
Fixpoint chain (h : gmap loc obj) (ns : nodes T) : Prop :=
  match ns with
  | [] => True
  | (l, v) :: ns' => h !! l = Some (ONode v (first_node ns')) ∧ chain h ns'
  end.

(** [is_list st list ns]: [list] points to a list struct whose nodes,
    from [head] on, are [ns]. *)
Definition is_list (st : state) (list : ptr) (ns : nodes T) : Prop :=
  ∃ a, list = Some a ∧
       heap st !! a = Some (OList (first_node ns)) ∧ chain (heap st) ns.

(** The coming calls of [malloc] succeed and return the addresses [ls],
    which are distinct, valid and not in use. *)
Definition allocates (st : state) (ls : list loc) : Prop :=
  take (length ls) (oracle st) = Some <$> ls ∧
  NoDup ls ∧
  Forall (λ l, heap st !! l = None ∧ valid_addr l) ls.

(** The next call of [malloc] fails. *)
Definition malloc_fails (st : state) : Prop := head (oracle st) ≫= id = None.

(** What [malloc] may do next: fail, or return an address that is valid
    and not in use. *)
Definition malloc_ok (st : state) : Prop :=
  match oracle st with
  | Some l :: _ => heap st !! l = None ∧ valid_addr l
  | _ => True
  end.

(** These predicates can be decided, given a test for equality on [T]. *)
Section Decide.
Context `{EqDecision T}.

#[global] Instance obj_eq_dec : EqDecision obj.
Proof. solve_decision. Defined.

#[global] Instance chain_dec h ns : Decision (chain h ns).
Proof. induction ns as [|[l v] ns IH]; simpl; apply _. Defined.

#[global] Instance is_list_dec st list ns : Decision (is_list st list ns).
Proof.
  refine (match list with
          | Some a =>
              cast_if (decide (heap st !! a = Some (OList (first_node ns)) ∧
                               chain (heap st) ns))
          | None => right _
          end); unfold is_list.
  - abstract (by exists a).
  - abstract (intros (a' & [= <-] & ?); tauto).
  - abstract (by intros (a' & ? & _)).
Defined.

#[global] Instance allocates_dec st ls : Decision (allocates st ls).
Proof. unfold allocates. apply _. Defined.

#[global] Instance malloc_fails_dec st : Decision (malloc_fails st).
Proof. unfold malloc_fails. apply _. Defined.

#[global] Instance malloc_ok_dec st : Decision (malloc_ok st).
Proof. unfold malloc_ok. destruct (oracle st) as [|[l|] o]; apply _. Defined.

End Decide.

End Representation.

(** ** Runs of calls, and what the calls leave behind *)

Section Runs.
Context {PF : Platform} {T : Type} `{EqDecision T}.

(** Appending the values [vs] one after the other. *)
Fixpoint appends (vs : list T) (list : ptr) (st : state T) : option (state T) :=
  match vs with
  | [] => Some st
  | v :: vs' =>
      '(_, st1) ← LinkedList_append v list st;
      appends vs' list st1
  end.

(** [make()] followed by the appends of [vs]. *)
Definition make_appends (vs : list T) (st : state T) : option (ptr * state T) :=
  let '(list, st1) := LinkedList_make st in
  st2 ← appends vs list st1;
  Some (list, st2).

(** The structural invariant: the nodes reachable from [head] form a chain
    that ends at [NULL], none of them occurs twice, and [len] returns
    their number. *)
Definition list_inv (st : state T) (list : ptr) : Prop :=
  ∃ ns, is_list st list ns ∧ NoDup ns.*1 ∧
        LinkedList_len list st = Some (N.of_nat (length ns)).

(** The three outcomes of [get], in the order the code tests for them. *)
Definition get_outcome (index : N) (result : ptr) (ns : nodes T) (st : state T)
  : option (Z * state T) :=
  match ns with
  | [] => Some (GOT_EMPTY_LIST, st)
  | _ :: _ =>
      match ns !! N.to_nat index with
      | None => Some (GOT_OUT_OF_BOUNDS, st)
      | Some (_, v) => st1 ← store_var result v st; Some (GOT_OK, st1)
      end
  end.

(** The heap after a successful append of [v] to the list at [a], whose
    nodes are [ns], in a new node at [l]. *)
Definition append_heap (a : loc) (ns : nodes T) (l : loc) (v : T)
    (h : gmap loc (obj T)) : gmap loc (obj T) :=
  match last ns with
  | Some (lt, vt) => <[lt := ONode vt (Some l)]> (<[l := ONode v None]> h)
  | None => <[a := OList (Some l)]> (<[l := ONode v None]> h)
  end.

(** [previous] once the loop of [delete] has walked over the nodes [mid]. *)
Fixpoint last_ptr (mid : nodes T) (previous : ptr) : ptr :=
  match mid with
  | [] => previous
  | (l, _) :: mid' => last_ptr mid' (Some l)
  end.

(** The heap after the node at [l], the one after the nodes [pre] of the
    list at [a] and before the nodes [post], has been unlinked and freed. *)
Definition delete_heap (a : loc) (pre : nodes T) (l : loc) (post : nodes T)
    (h : gmap loc (obj T)) : gmap loc (obj T) :=
  match last pre with
  | Some (lp, vp) => delete l (<[lp := ONode vp (first_node post)]> h)
  | None => delete l (<[a := OList (first_node post)]> h)
  end.

(** What it would mean for [append] to report a failed allocation: its
    caller is returned something else than after a successful append. *)
Definition append_signals_failure : Prop :=
  ∀ (v : T) (a : loc) (ns : nodes T) (st_fail st_ok : state T) (l : loc),
    is_list st_fail (Some a) ns → is_list st_ok (Some a) ns →
    malloc_fails st_fail → allocates st_ok [l] →
    fst <$> LinkedList_append v (Some a) st_fail
      ≠ fst <$> LinkedList_append v (Some a) st_ok.

End Runs.

Arguments append_signals_failure {PF} T.

(** ** More fuel changes no result

    A loop that returns within [n] steps returns the same within any
    larger number of steps: what a function returns does not depend on
    how its fuel was chosen. *)

Section Fuel.
Context {PF : Platform} {T : Type} `{EqDecision T}.
Implicit Types (st : state T) (n m : nat).

Lemma len_loop_mono n m current len st r :
  len_loop n current len st = Some r → n ≤ m →
  len_loop m current len st = Some r.
Proof.
  revert m current len. induction n as [|n IH]; intros [|m] current len Hr Hnm;
    try done; try lia.
  simpl in *. destruct current as [l|]; [|done].
  destruct (get_next (Some l) st) as [next|]; [|done]. simpl in *.
  apply IH; [done|lia].
Qed.

Lemma append_loop_mono n m current st r :
  append_loop n current st = Some r → n ≤ m →
  append_loop m current st = Some r.
Proof.
  revert m current. induction n as [|n IH]; intros [|m] current Hr Hnm;
    try done; try lia.
  simpl in *. destruct (get_next current st) as [[l|]|]; try done. simpl in *.
  apply IH; [done|lia].
Qed.

Lemma delete_loop_mono n m value list current previous st r :
  delete_loop n value list current previous st = Some r → n ≤ m →
  delete_loop m value list current previous st = Some r.
Proof.
  revert m current previous.
  induction n as [|n IH]; intros [|m] current previous Hr Hnm; try done; try lia.
  simpl in *. destruct current as [l|]; [|done].
  destruct (get_value (Some l) st) as [v|]; [|done]. simpl in *.
  case_decide; [done|].
  destruct (get_next (Some l) st) as [next|]; [|done]. simpl in *.
  apply IH; [done|lia].
Qed.

Lemma free_loop_mono n m current st r :
  free_loop n current st = Some r → n ≤ m → free_loop m current st = Some r.
Proof.
  revert m current st. induction n as [|n IH]; intros [|m] current st Hr Hnm;
    try done; try lia.
  simpl in *. destruct current as [l|]; [|done].
  destruct (get_next (Some l) st) as [next|]; [|done]. simpl in *.
  destruct (free (Some l) st) as [st1|]; [|done]. simpl in *.
  apply IH; [done|lia].
Qed.

Lemma get_loop_mono n m i index current st r :
  get_loop n i index current st = Some r → n ≤ m →
  get_loop m i index current st = Some r.
Proof.
  revert m i current. induction n as [|n IH]; intros [|m] i current Hr Hnm;
    try done; try lia.
  simpl in *. case_decide; [|done].
  destruct (get_next current st) as [next|]; [|done]. simpl in *.
  apply IH; [done|lia].
Qed.

End Fuel.

(** ** Chains of nodes *)

Section ChainFacts.
Context {PF : Platform} {T : Type}.
Implicit Types (h : gmap loc (obj T)) (ns : nodes T) (l : loc) (v : T).

Lemma chain_app_r h ns1 ns2 : chain h (ns1 ++ ns2) → chain h ns2.
Proof.
  induction ns1 as [|[l v] ns1 IH]; simpl; [done|]. intros [_ Hc]. auto.
Qed.

Lemma chain_app_l h ns1 ns2 :
  chain h (ns1 ++ ns2) →
  ∀ i l v, ns1 !! i = Some (l, v) →
    h !! l = Some (ONode v (first_node (drop (S i) (ns1 ++ ns2)))).
Proof.
  induction ns1 as [|[l0 v0] ns1 IH]; simpl; [done|].
  intros [Hl Hc] [|i] l v Hi; simplify_eq/=.
  - by rewrite drop_0.
  - eauto.
Qed.

Lemma chain_lookup h ns i l v :
  chain h ns → ns !! i = Some (l, v) →
  h !! l = Some (ONode v (first_node (drop (S i) ns))).
Proof.
  intros Hc Hi. rewrite <-(app_nil_r ns) in Hc.
  pose proof (chain_app_l _ _ _ Hc _ _ _ Hi) as Hl. by rewrite app_nil_r in Hl.
Qed.

(** A chain is determined by the heap and its first pointer. *)
Lemma chain_inj h ns1 ns2 :
  chain h ns1 → chain h ns2 → first_node ns1 = first_node ns2 → ns1 = ns2.
Proof.
  revert ns2. induction ns1 as [|[l1 v1] ns1 IH]; intros [|[l2 v2] ns2]; simpl;
    try done.
  intros [H1 Hc1] [H2 Hc2] [= ->]. rewrite H1 in H2. injection H2 as -> Hf.
  f_equal. by apply IH.
Qed.

(** Hence no node occurs twice in it: the chain is acyclic. *)
Lemma chain_NoDup h ns : chain h ns → NoDup ns.*1.
Proof.
  induction ns as [|[l v] ns IH]; simpl; [constructor|].
  intros [Hl Hc]. constructor; [|by auto].
  intros Hin. apply list_elem_of_fmap in Hin as ([l' v'] & -> & Hin). simpl in *.
  apply list_elem_of_split in Hin as (a & b & ->).
  pose proof (chain_app_r _ _ _ Hc) as Hb. simpl in Hb. destruct Hb as [Hl' Hb].
  rewrite Hl in Hl'. injection Hl' as -> Hf.
  pose proof (chain_app_r _ _ _ Hc) as Hc'.
  assert (a ++ (l', v') :: b = b) as Heq.
  { apply (chain_inj h); [done|done|done]. }
  apply (f_equal length) in Heq. rewrite length_app in Heq. simpl in Heq. lia.
Qed.

Lemma chain_allocated h ns l : chain h ns → l ∈ ns.*1 → is_Some (h !! l).
Proof.
  intros Hc Hin. apply list_elem_of_fmap in Hin as ([l' v'] & -> & Hin).
  apply list_elem_of_lookup in Hin as [i Hi].
  erewrite chain_lookup by eauto. eauto.
Qed.

(** The nodes of a chain are objects of the heap, so there are no more of
    them than objects. *)
Lemma chain_length_size h ns : chain h ns → length ns ≤ size h.
Proof.
  intros Hc. rewrite <-(length_fmap fst ns).
  rewrite <-(size_list_to_set (C:=gset loc)) by by eapply chain_NoDup.
  rewrite <-size_dom. apply subseteq_size. intros l Hl.
  apply elem_of_list_to_set in Hl. apply elem_of_dom. by eapply chain_allocated.
Qed.

End ChainFacts.

(** ** Sizes stay below [2 ^ size_bits] *)

Section Bounds.
Context {PF : Platform} {T : Type}.
Implicit Types (h : gmap loc (obj T)) (ns : nodes T) (l : loc) (v : T).

(** There are fewer distinct valid addresses than [size_t] has values. *)
Lemma distinct_addresses_bound (ls : list loc) :
  NoDup ls → Forall valid_addr ls → (N.of_nat (length ls) < 2 ^ size_bits)%N.
Proof.
  intros Hnd Hv.
  assert (length (N.to_nat <$> ls) ≤ length (seq 1 (N.to_nat (2 ^ size_bits) - 1)))
    as Hle.
  { apply submseteq_length, NoDup_submseteq.
    - apply NoDup_fmap_2; [|done]. intros x y Hxy. by apply N2Nat.inj.
    - intros x Hx. apply list_elem_of_fmap in Hx as (y & -> & Hy).
      rewrite Forall_forall in Hv. destruct (Hv y Hy) as [H0 H1].
      apply elem_of_seq. lia. }
  rewrite length_fmap, length_seq in Hle.
  assert (0 < 2 ^ size_bits)%N by (apply N.neq_0_lt_0, N.pow_nonzero; lia).
  lia.
Qed.

Lemma chain_length_bound h ns :
  heap_ok h → chain h ns → (N.of_nat (length ns) < 2 ^ size_bits)%N.
Proof.
  intros Hok Hc. rewrite <-(length_fmap fst ns).
  apply distinct_addresses_bound; [by eapply chain_NoDup|].
  apply Forall_forall. intros l Hl.
  destruct (chain_allocated _ _ _ Hc Hl) as [o Ho]. by apply (Hok l o).
Qed.

Lemma size_succ_small (x : N) :
  (x + 1 < 2 ^ size_bits)%N → size_succ x = (x + 1)%N.
Proof. intros Hx. unfold size_succ. by apply N.mod_small. Qed.

Lemma heap_ok_insert h l (o : obj T) :
  heap_ok h → valid_addr l → heap_ok (<[l := o]> h).
Proof. intros Hok Hl. by apply map_Forall_insert_2. Qed.

Lemma heap_ok_update h l (o o' : obj T) :
  heap_ok h → h !! l = Some o → heap_ok (<[l := o']> h).
Proof. intros Hok Hl. apply map_Forall_insert_2; [|done]. by apply (Hok l o). Qed.

Lemma heap_ok_delete h l : heap_ok h → heap_ok (delete l h).
Proof. apply map_Forall_delete. Qed.

End Bounds.

(** ** Changing the heap away from a chain *)

Section Frame.
Context {PF : Platform} {T : Type}.
Implicit Types (h : gmap loc (obj T)) (ns : nodes T) (l : loc) (v : T).

Lemma chain_insert_ne h ns l (o : obj T) :
  l ∉ ns.*1 → chain h ns → chain (<[l := o]> h) ns.
Proof.
  induction ns as [|[l0 v0] ns IH]; simpl; [done|].
  intros Hl [H0 Hc]. apply not_elem_of_cons in Hl as [Hne Hl].
  split; [by rewrite lookup_insert_ne|by auto].
Qed.

Lemma chain_delete_ne h ns l :
  l ∉ ns.*1 → chain h ns → chain (delete l h) ns.
Proof.
  induction ns as [|[l0 v0] ns IH]; simpl; [done|].
  intros Hl [H0 Hc]. apply not_elem_of_cons in Hl as [Hne Hl].
  split; [by rewrite lookup_delete_ne|by auto].
Qed.

(** An address that holds no node is not on any chain. *)
Lemma chain_not_node h ns l :
  chain h ns → (∀ v n, h !! l ≠ Some (ONode v n)) → l ∉ ns.*1.
Proof.
  intros Hc Hl Hin. apply list_elem_of_fmap in Hin as ([l' v'] & -> & Hin).
  apply list_elem_of_lookup in Hin as [i Hi].
  eapply Hl. by eapply chain_lookup.
Qed.

(** Linking a new last node to a chain. *)
Lemma chain_snoc h ns l v :
  chain h ns → h !! l = None →
  chain (match last ns with
         | Some (lt, vt) => <[lt := ONode vt (Some l)]> (<[l := ONode v None]> h)
         | None => <[l := ONode v None]> h
         end) (ns ++ [(l, v)]).
Proof.
  intros Hc Hl.
  assert (l ∉ ns.*1) as Hnl.
  { intros Hin. destruct (chain_allocated _ _ _ Hc Hin) as [? ?]. congruence. }
  pose proof (chain_NoDup _ _ Hc) as Hnd.
  induction ns as [|[l0 v0] ns IH]; simpl.
  - split; [|done]. by rewrite lookup_insert_eq.
  - destruct Hc as [H0 Hc]. apply not_elem_of_cons in Hnl as [Hne Hnl].
    simpl in Hnd. apply NoDup_cons in Hnd as [Hn0 Hnd].
    specialize (IH Hc Hnl Hnd).
    destruct ns as [|[l1 v1] ns'] eqn:Hns.
    + simpl in *. split; [by rewrite lookup_insert_eq|].
      split; [|done]. rewrite lookup_insert_ne by done. by rewrite lookup_insert_eq.
    + rewrite <-Hns in *. rewrite last_cons.
      assert (is_Some (last ns)) as [[lt vt] Hlast].
      { rewrite Hns. rewrite last_cons. destruct (last ns'); eauto. }
      rewrite Hlast in IH |- *.
      assert (lt ≠ l0) as Hlt.
      { intros ->. apply Hn0. apply list_elem_of_fmap. exists (l0, vt).
        split; [done|]. apply last_Some in Hlast as [ns'' ->]. set_solver. }
      split; [|done].
      rewrite !lookup_insert_ne by done. rewrite H0. do 2 f_equal.
      rewrite Hns. done.
Qed.

End Frame.

(** ** What the functions compute on a well-formed list *)

Section Specs.
Context {PF : Platform} {T : Type} `{EqDecision T}.
Implicit Types (st : state T) (ns : nodes T) (l r : loc) (v : T).

Lemma get_next_chain st l v ns :
  chain (heap st) ((l, v) :: ns) → get_next (Some l) st = Some (first_node ns).
Proof. intros [Hl _]. unfold get_next. cbn. by rewrite Hl. Qed.

Lemma get_value_chain st l v ns :
  chain (heap st) ((l, v) :: ns) → get_value (Some l) st = Some v.
Proof. intros [Hl _]. unfold get_value. cbn. by rewrite Hl. Qed.

Lemma get_head_is_list st list ns :
  is_list st list ns → get_head list st = Some (first_node ns).
Proof. intros (a & -> & Ha & _). unfold get_head. cbn. by rewrite Ha. Qed.

Lemma is_list_chain st list ns : is_list st list ns → chain (heap st) ns.
Proof. by intros (a & _ & _ & Hc). Qed.

Lemma is_list_NoDup st list ns : is_list st list ns → NoDup ns.*1.
Proof. intros H. eapply chain_NoDup, is_list_chain, H. Qed.

Lemma len_loop_chain st ns : ∀ n acc,
  chain (heap st) ns → length ns < n →
  (acc + N.of_nat (length ns) < 2 ^ size_bits)%N →
  len_loop n (first_node ns) acc st = Some (acc + N.of_nat (length ns))%N.
Proof.
  induction ns as [|[l v] ns IH]; intros [|n] acc Hc Hn Hb; simpl in *; try lia.
  - f_equal. lia.
  - rewrite (get_next_chain st l v ns) by done. simpl.
    rewrite size_succ_small by lia. destruct Hc as [_ Hc].
    rewrite IH by (done || lia). f_equal. lia.
Qed.

(** [len] returns the number of nodes. *)
Lemma LinkedList_len_spec st list ns :
  heap_ok (heap st) → is_list st list ns →
  LinkedList_len list st = Some (N.of_nat (length ns)).
Proof.
  intros Hok Hl. unfold LinkedList_len.
  rewrite (get_head_is_list _ _ _ Hl). cbn [mbind option_bind].
  pose proof (is_list_chain _ _ _ Hl) as Hc.
  pose proof (chain_length_size _ _ Hc). pose proof (chain_length_bound _ _ Hok Hc).
  rewrite len_loop_chain; [done|done|unfold fuel; lia|lia].
Qed.

Lemma get_loop_chain st : ∀ n ns i index,
  chain (heap st) ns → (i ≤ index)%N → (index < 2 ^ size_bits)%N →
  N.to_nat (index - i) < n → N.to_nat (index - i) < length ns →
  get_loop n i index (first_node ns) st =
    Some (first_node (drop (N.to_nat (index - i)) ns)).
Proof.
  induction n as [|n IH]; intros ns i index Hc Hi Hb Hn Hlen; [lia|].
  simpl. case_decide as Hlt.
  - destruct ns as [|[l v] ns]; simpl in Hlen; [lia|].
    change (first_node ((l, v) :: ns)) with (Some l).
    rewrite (get_next_chain st l v ns) by done. simpl.
    rewrite size_succ_small by lia. destruct Hc as [_ Hc].
    rewrite IH by (done || lia).
    replace (N.to_nat (index - i)) with (S (N.to_nat (index - (i + 1)))) by lia.
    done.
  - replace (N.to_nat (index - i)) with 0%nat by lia. by rewrite drop_0.
Qed.

Lemma LinkedList_get_spec st list ns index result :
  heap_ok (heap st) → is_list st list ns →
  LinkedList_get index list result st = get_outcome index result ns st.
Proof.
  intros Hok Hl. unfold LinkedList_get.
  rewrite (get_head_is_list _ _ _ Hl). cbn [mbind option_bind].
  rewrite (LinkedList_len_spec _ _ _ Hok Hl). cbn [mbind option_bind].
  pose proof (is_list_chain _ _ _ Hl) as Hc.
  pose proof (chain_length_bound _ _ Hok Hc) as Hb.
  unfold get_outcome. destruct ns as [|n0 ns']; [done|].
  set (ns := n0 :: ns') in *.
  case_decide as H0; [subst ns; simpl in H0; lia|].
  case_decide as Hle.
  - rewrite lookup_ge_None_2 by lia. done.
  - assert (N.to_nat index < length ns) as Hlt by lia.
    destruct (lookup_lt_is_Some_2 _ _ Hlt) as [[l v] Hlv]. rewrite Hlv.
    rewrite get_loop_chain; [|done|lia|lia|lia|lia].
    rewrite N.sub_0_r. cbn [mbind option_bind].
    pose proof (chain_app_r (heap st) (take (N.to_nat index) ns)
                  (drop (N.to_nat index) ns)) as Hd.
    rewrite take_drop in Hd. specialize (Hd Hc).
    rewrite (drop_S _ _ _ Hlv) in Hd |- *.
    change (first_node ((l, v) :: drop (S (N.to_nat index)) ns)) with (Some l).
    by rewrite (get_value_chain _ _ _ _ Hd).
Qed.

(** [get] at an index inside the list, with a variable to store into. *)
Lemma LinkedList_get_ok st list ns index r c l v :
  heap_ok (heap st) → is_list st list ns → heap st !! r = Some (OVar c) →
  ns !! N.to_nat index = Some (l, v) →
  LinkedList_get index list (Some r) st
    = Some (GOT_OK, set_heap (<[r := OVar (Some v)]> (heap st)) st).
Proof.
  intros Hok Hl Hr Hi. rewrite (LinkedList_get_spec _ _ ns) by done.
  unfold get_outcome. destruct ns as [|n0 ns']; [done|]. rewrite Hi.
  unfold store_var. cbn. by rewrite Hr.
Qed.

(** *** append *)

Lemma append_loop_chain st l v : ∀ ns n,
  chain (heap st) (ns ++ [(l, v)]) → length ns < n →
  append_loop n (first_node (ns ++ [(l, v)])) st = Some (Some l).
Proof.
  induction ns as [|[l0 v0] ns IH]; intros [|n] Hc Hn; simpl in *; try lia.
  - by rewrite (get_next_chain st l v []).
  - rewrite (get_next_chain st l0 v0 (ns ++ [(l, v)])) by done.
    cbn [mbind option_bind]. destruct Hc as [_ Hc].
    specialize (IH n Hc ltac:(lia)).
    destruct (first_node (ns ++ [(l, v)])) eqn:Hf; [done|by destruct ns as [|[??]?]].
Qed.

Lemma chain_last st ns lt vt :
  chain (heap st) ns → last ns = Some (lt, vt) →
  heap st !! lt = Some (ONode vt None).
Proof.
  intros Hc Hlast. apply last_Some in Hlast as [ns0 ->].
  apply chain_app_r in Hc. by destruct Hc.
Qed.

Lemma LinkedList_append_ok st a ns v l o :
  is_list st (Some a) ns → oracle st = Some l :: o → heap st !! l = None →
  LinkedList_append v (Some a) st
    = Some (tt, State (append_heap a ns l v (heap st)) o).
Proof.
  intros Hl Ho Hfresh. unfold LinkedList_append.
  rewrite (get_head_is_list _ _ _ Hl).
  pose proof (is_list_chain _ _ _ Hl) as Hc.
  destruct Hl as (a' & [= <-] & Ha & _).
  assert (a ≠ l) as Hal by congruence.
  unfold append_heap, LinkedList_new, malloc. rewrite Ho.
  destruct (last ns) as [[lt vt]|] eqn:Hlast.
  - pose proof (chain_last _ _ _ _ Hc Hlast) as Hlt.
    apply last_Some in Hlast as [ns0 ->].
    assert (first_node (ns0 ++ [(lt, vt)]) ≠ None) as Hne
      by by destruct ns0 as [|[??]?].
    cbn [mbind option_bind].
    destruct (first_node (ns0 ++ [(lt, vt)])) eqn:Hf; [|done].
    rewrite <-Hf, append_loop_chain; [|done|].
    2:{ pose proof (chain_length_size _ _ Hc) as Hs. rewrite length_app in Hs.
        simpl in Hs. unfold fuel. lia. }
    cbn [mbind option_bind]. unfold set_next, set_heap. cbn.
    assert (lt ≠ l) as Hltl by congruence.
    rewrite lookup_insert_ne by done. by rewrite Hlt.
  - apply last_None in Hlast as ->. cbn.
    unfold set_head, set_heap. cbn. rewrite lookup_insert_ne by done.
    by rewrite Ha.
Qed.

Lemma append_heap_is_list st a ns v l o :
  is_list st (Some a) ns → heap st !! l = None →
  is_list (State (append_heap a ns l v (heap st)) o) (Some a) (ns ++ [(l, v)]).
Proof.
  intros Hl Hfresh. pose proof (is_list_chain _ _ _ Hl) as Hc.
  destruct Hl as (a' & [= <-] & Ha & _).
  assert (a ≠ l) as Hal by congruence.
  pose proof (chain_snoc _ _ l v Hc Hfresh) as Hs.
  exists a. split; [done|]. unfold append_heap. cbn.
  destruct (last ns) as [[lt vt]|] eqn:Hlast.
  - split; [|done]. pose proof (chain_last _ _ _ _ Hc Hlast) as Hlt.
    rewrite !lookup_insert_ne by congruence. rewrite Ha. f_equal.
    apply last_Some in Hlast as [ns0 ->]. by destruct ns0 as [|[??]?].
  - apply last_None in Hlast as ->. split; [by rewrite lookup_insert_eq|].
    apply chain_insert_ne; [|done]. simpl.
    apply not_elem_of_cons. split; [done|apply not_elem_of_nil].
Qed.

(** Objects off the list and away from the new node are left alone. *)
Lemma append_heap_frame a ns l v (h : gmap loc (obj T)) k :
  k ≠ a → k ≠ l → k ∉ ns.*1 → append_heap a ns l v h !! k = h !! k.
Proof.
  intros Hka Hkl Hk. unfold append_heap.
  destruct (last ns) as [[lt vt]|] eqn:Hlast.
  - rewrite !lookup_insert_ne; [done|done|]. intros ->. apply Hk.
    apply last_Some in Hlast as [ns0 ->]. rewrite fmap_app. set_solver.
  - by rewrite !lookup_insert_ne.
Qed.

Lemma append_heap_ok st a ns l v :
  heap_ok (heap st) → is_list st (Some a) ns → valid_addr l →
  heap_ok (append_heap a ns l v (heap st)).
Proof.
  intros Hok Hl Hv. pose proof (is_list_chain _ _ _ Hl) as Hc.
  destruct Hl as (a' & [= <-] & Ha & _). unfold append_heap.
  destruct (last ns) as [[lt vt]|] eqn:Hlast.
  - pose proof (chain_last _ _ _ _ Hc Hlast) as Hlt.
    apply map_Forall_insert_2; [by apply (Hok lt _ Hlt)|by apply heap_ok_insert].
  - apply map_Forall_insert_2; [by apply (Hok a _ Ha)|by apply heap_ok_insert].
Qed.

(** When [malloc] fails the stores of [append] write back what is there. *)
Lemma LinkedList_append_fail st list ns v :
  is_list st list ns → malloc_fails st →
  LinkedList_append v list st = Some (tt, State (heap st) (tail (oracle st))).
Proof.
  intros Hl Hf. unfold LinkedList_append.
  rewrite (get_head_is_list _ _ _ Hl).
  pose proof (is_list_chain _ _ _ Hl) as Hc.
  destruct Hl as (a & -> & Ha & _).
  assert (LinkedList_new v st = (None, State (heap st) (tail (oracle st)))) as ->.
  { unfold LinkedList_new, malloc, malloc_fails in *. destruct st as [h [|[x|] o]];
      simpl in *; done. }
  cbn [mbind option_bind].
  destruct (last ns) as [[lt vt]|] eqn:Hlast.
  - pose proof (chain_last _ _ _ _ Hc Hlast) as Hlt.
    apply last_Some in Hlast as [ns0 ->].
    destruct (first_node (ns0 ++ [(lt, vt)])) eqn:Hf'; [|by destruct ns0 as [|[??]?]].
    rewrite <-Hf', append_loop_chain; [|done|].
    2:{ pose proof (chain_length_size _ _ Hc) as Hs. rewrite length_app in Hs.
        simpl in Hs. unfold fuel. lia. }
    cbn [mbind option_bind]. unfold set_next, set_heap. cbn. rewrite Hlt.
    by rewrite insert_id.
  - apply last_None in Hlast as ->. cbn. unfold set_head, set_heap. cbn.
    rewrite Ha. by rewrite insert_id.
Qed.

(** *** delete *)

Lemma last_ptr_last (mid : nodes T) previous lp vp :
  last mid = Some (lp, vp) → last_ptr mid previous = Some lp.
Proof.
  revert previous. induction mid as [|[l0 v0] mid IH]; intros previous; [done|].
  simpl. destruct mid as [|n1 mid']; [by intros [= -> ->]|].
  intros Hlast. by apply IH.
Qed.

(** The iterations over nodes whose value differs from [value]. *)
Lemma delete_loop_skip st value list : ∀ mid rest n previous,
  chain (heap st) (mid ++ rest) → value ∉ mid.*2 → length mid ≤ n →
  delete_loop n value list (first_node (mid ++ rest)) previous st =
  delete_loop (n - length mid) value list (first_node rest)
    (last_ptr mid previous) st.
Proof.
  induction mid as [|[l0 v0] mid IH]; intros rest n previous Hc Hv Hn.
  - simpl. by rewrite Nat.sub_0_r.
  - destruct n as [|n]; simpl in Hn; [lia|].
    simpl in Hv. apply not_elem_of_cons in Hv as [Hne Hv].
    change (first_node (((l0, v0) :: mid) ++ rest)) with (Some l0).
    cbn [delete_loop].
    rewrite (get_value_chain st l0 v0 (mid ++ rest)) by done.
    cbn [mbind option_bind]. rewrite decide_False by done.
    rewrite (get_next_chain st l0 v0 (mid ++ rest)) by done.
    cbn [mbind option_bind]. destruct Hc as [_ Hc].
    rewrite IH by (done || lia). done.
Qed.

(** No element equals [value]: the loop ends at [NULL] and nothing is written. *)
Lemma LinkedList_delete_missing st list ns value :
  is_list st list ns → value ∉ ns.*2 →
  LinkedList_delete value list st = Some (1%Z, st).
Proof.
  intros Hl Hv. unfold LinkedList_delete.
  rewrite (get_head_is_list _ _ _ Hl). cbn [mbind option_bind].
  pose proof (is_list_chain _ _ _ Hl) as Hc.
  pose proof (chain_length_size _ _ Hc) as Hs.
  rewrite <-(app_nil_r ns) in Hc |- *.
  rewrite delete_loop_skip by (done || unfold fuel; lia).
  unfold fuel. replace (S (size (heap st)) - length ns) with
    (S (size (heap st) - length ns)) by lia. done.
Qed.

Lemma LinkedList_delete_found st a pre l v post :
  is_list st (Some a) (pre ++ (l, v) :: post) → v ∉ pre.*2 →
  LinkedList_delete v (Some a) st
    = Some (0%Z, set_heap (delete_heap a pre l post (heap st)) st).
Proof.
  intros Hl Hv. unfold LinkedList_delete.
  rewrite (get_head_is_list _ _ _ Hl). cbn [mbind option_bind].
  pose proof (is_list_chain _ _ _ Hl) as Hc.
  pose proof (chain_length_size _ _ Hc) as Hs.
  pose proof (chain_NoDup _ _ Hc) as Hnd.
  destruct Hl as (a' & [= <-] & Ha & _).
  rewrite length_app in Hs. simpl in Hs.
  rewrite delete_loop_skip by (done || unfold fuel; lia).
  unfold fuel. replace (S (size (heap st)) - length pre) with
    (S (size (heap st) - length pre)) by lia.
  pose proof (chain_app_r _ _ _ Hc) as Hc'.
  change (first_node ((l, v) :: post)) with (Some l). cbn [delete_loop].
  rewrite (get_value_chain st l v post) by done.
  cbn [mbind option_bind]. rewrite decide_True by done.
  rewrite (get_next_chain st l v post) by done. cbn [mbind option_bind].
  destruct Hc' as [Hlv _]. rewrite fmap_app in Hnd. simpl in Hnd.
  apply NoDup_app in Hnd as (_ & Hdisj & _).
  assert (a ≠ l) as Hal by congruence.
  unfold delete_heap. destruct (last pre) as [[lp vp]|] eqn:Hlast.
  - rewrite (last_ptr_last _ _ _ _ Hlast).
    assert (lp ≠ l) as Hlp.
    { intros ->. apply (Hdisj l); [|set_solver].
      apply last_Some in Hlast as [pre0 ->]. rewrite fmap_app. set_solver. }
    assert (heap st !! lp = Some (ONode vp (Some l))) as Hp.
    { apply last_Some in Hlast as [pre0 ->]. rewrite <-app_assoc in Hc.
      apply chain_app_r in Hc. by destruct Hc. }
    assert (a ≠ lp) as Halp by congruence.
    unfold set_next. cbn. rewrite Hp. unfold get_head, set_heap. cbn.
    rewrite lookup_insert_ne by done. rewrite Ha. cbn [mbind option_bind].
    rewrite decide_False.
    2:{ destruct pre as [|[l0 v0] pre']; [done|]. simpl. intros [= ->].
        apply (Hdisj l0); simpl; left. }
    cbn [mbind option_bind].
    unfold free. cbn. rewrite lookup_insert_ne by done. by rewrite Hlv.
  - apply last_None in Hlast as ->. simpl in *.
    unfold set_next. cbn. rewrite Hlv. unfold get_head, set_heap. cbn.
    rewrite insert_id by done. rewrite Ha. cbn [mbind option_bind].
    rewrite decide_True by done.
    unfold get_next. cbn. rewrite Hlv. unfold set_head. cbn. rewrite Ha.
    unfold free, set_heap. cbn. rewrite lookup_insert_ne by done. by rewrite Hlv.
Qed.

(** Pointing the node before the removed one to the node after it. *)
Lemma chain_relink (h : gmap loc (obj T)) pre0 lp vp l v post :
  chain h (pre0 ++ (lp, vp) :: (l, v) :: post) →
  chain (<[lp := ONode vp (first_node post)]> h) (pre0 ++ (lp, vp) :: post).
Proof.
  intros Hc. pose proof (chain_NoDup _ _ Hc) as Hnd.
  induction pre0 as [|[l0 v0] pre0 IH]; simpl in *.
  - destruct Hc as (_ & _ & Hc). split; [by rewrite lookup_insert_eq|].
    apply chain_insert_ne; [|done].
    apply NoDup_cons in Hnd as [Hn _]. rewrite not_elem_of_cons in Hn. tauto.
  - destruct Hc as [H0 Hc]. apply NoDup_cons in Hnd as [Hn Hnd].
    split; [|by apply IH].
    rewrite lookup_insert_ne.
    2:{ intros ->. apply Hn. rewrite fmap_app. apply elem_of_app. right. left. }
    rewrite H0. do 2 f_equal. by destruct pre0 as [|[??]?].
Qed.

Lemma delete_heap_is_list st a pre l v post :
  is_list st (Some a) (pre ++ (l, v) :: post) →
  is_list (set_heap (delete_heap a pre l post (heap st)) st) (Some a) (pre ++ post).
Proof.
  intros Hl. pose proof (is_list_chain _ _ _ Hl) as Hc.
  pose proof (chain_NoDup _ _ Hc) as Hnd.
  destruct Hl as (a' & [= <-] & Ha & _).
  assert (a ∉ (pre ++ (l, v) :: post).*1) as Hna.
  { eapply chain_not_node; [done|]. intros ??. congruence. }
  assert (l ∉ (pre ++ post).*1) as Hnl.
  { rewrite fmap_app in Hnd |- *. simpl in Hnd.
    apply NoDup_app in Hnd as (_ & Hdisj & Hnd).
    apply NoDup_cons in Hnd as [Hn _].
    intros [Hin|Hin]%elem_of_app; [|done]. apply (Hdisj l Hin). left. }
  assert (a ≠ l) as Hal.
  { intros ->. apply Hna. rewrite fmap_app. apply elem_of_app. right. left. }
  exists a. split; [done|]. unfold delete_heap, set_heap. cbn.
  destruct (last pre) as [[lp vp]|] eqn:Hlast.
  - apply last_Some in Hlast as [pre0 ->].
    rewrite <-!app_assoc in *. simpl in *.
    assert (a ≠ lp) as Halp.
    { intros ->. apply Hna. rewrite fmap_app. apply elem_of_app. right. left. }
    split.
    + rewrite lookup_delete_ne by done. rewrite lookup_insert_ne by done.
      rewrite Ha. f_equal. by destruct pre0 as [|[??]?].
    + apply chain_delete_ne; [done|]. by eapply chain_relink.
  - apply last_None in Hlast as ->. simpl in *. split.
    + rewrite lookup_delete_ne by done. by rewrite lookup_insert_eq.
    + destruct Hc as [_ Hc]. apply chain_delete_ne; [done|].
      apply chain_insert_ne; [|done]. rewrite not_elem_of_cons in Hna. tauto.
Qed.

Lemma delete_heap_ok st a pre l v post :
  heap_ok (heap st) → is_list st (Some a) (pre ++ (l, v) :: post) →
  heap_ok (delete_heap a pre l post (heap st)).
Proof.
  intros Hok Hl. pose proof (is_list_chain _ _ _ Hl) as Hc.
  destruct Hl as (a' & [= <-] & Ha & _). unfold delete_heap.
  destruct (last pre) as [[lp vp]|] eqn:Hlast.
  - apply heap_ok_delete. apply last_Some in Hlast as [pre0 ->].
    rewrite <-app_assoc in Hc. apply chain_app_r in Hc. destruct Hc as [Hp _].
    by eapply heap_ok_update.
  - apply heap_ok_delete. by eapply heap_ok_update.
Qed.

(** A deletion writes to the removed node and to what pointed to it, the
    node before it or else the list struct, and to nothing else. *)
Lemma delete_heap_frame a pre l post (h : gmap loc (obj T)) k :
  k ≠ l → k ≠ default a (fst <$> last pre) →
  delete_heap a pre l post h !! k = h !! k.
Proof.
  intros Hkl Hk. unfold delete_heap.
  destruct (last pre) as [[lp vp]|] eqn:Hlast; simpl in Hk;
    rewrite lookup_delete_ne by done; by rewrite lookup_insert_ne.
Qed.

(** *** make, and runs of appends *)

Lemma LinkedList_make_ok st a o :
  oracle st = Some a :: o →
  LinkedList_make st = (Some a, State (<[a := OList None]> (heap st)) o).
Proof. intros Ho. unfold LinkedList_make, malloc. by rewrite Ho. Qed.

Lemma make_is_list (h : gmap loc (obj T)) a o :
  is_list (State (<[a := OList None]> h) o) (Some a) [].
Proof. exists a. cbn. by rewrite lookup_insert_eq. Qed.

(** A variable of the caller is no part of a list. *)
Lemma var_off_list st a ns r c :
  is_list st (Some a) ns → heap st !! r = Some (OVar c) → r ≠ a ∧ r ∉ ns.*1.
Proof.
  intros Hl Hr. pose proof (is_list_chain _ _ _ Hl) as Hc.
  destruct Hl as (a' & [= <-] & Ha & _). split; [congruence|].
  eapply chain_not_node; [done|]. intros ??. congruence.
Qed.

Lemma appends_ok vs : ∀ st a ns ls,
  heap_ok (heap st) → is_list st (Some a) ns → allocates st ls →
  length ls = length vs →
  ∃ st', appends vs (Some a) st = Some st' ∧
         heap_ok (heap st') ∧
         is_list st' (Some a) (ns ++ zip ls vs) ∧
         oracle st' = drop (length ls) (oracle st) ∧
         (∀ r c, heap st !! r = Some (OVar c) → heap st' !! r = Some (OVar c)).
Proof.
  induction vs as [|v vs IH]; intros st a ns ls Hok Hl Hal Hlen.
  - destruct ls; [|done]. exists st. rewrite app_nil_r. by rewrite drop_0.
  - destruct ls as [|l ls]; [done|]. simpl in Hlen.
    destruct Hal as (Ho & Hnd & Hf).
    apply NoDup_cons in Hnd as [Hnl Hnd]. apply Forall_cons in Hf as [[Hfl Hvl] Hf].
    destruct (oracle st) as [|x o] eqn:Hor; [done|].
    simpl in Ho. injection Ho as -> Ho.
    simpl. rewrite (LinkedList_append_ok st a ns v l o) by done.
    cbn [mbind option_bind].
    set (st1 := State (append_heap a ns l v (heap st)) o).
    destruct (IH st1 a (ns ++ [(l, v)]) ls) as (st' & Hrun & Hok' & Hl' & Ho' & Hfr).
    + by apply append_heap_ok.
    + by apply append_heap_is_list.
    + split; [done|]. split; [done|]. apply Forall_forall. intros k Hk.
      rewrite Forall_forall in Hf. destruct (Hf k Hk) as [Hkf Hkv]. split; [|done].
      subst st1. cbn. rewrite append_heap_frame; [done| | |].
      * destruct Hl as (a' & [= <-] & Ha & _). congruence.
      * intros ->. done.
      * intros Hin. destruct (chain_allocated _ _ _ (is_list_chain _ _ _ Hl) Hin).
        congruence.
    + lia.
    + exists st'. split; [done|]. split; [done|]. split.
      { by rewrite <-app_assoc in Hl'. }
      split; [done|]. intros r c Hr. apply Hfr. subst st1. cbn.
      destruct (var_off_list _ _ _ _ _ Hl Hr) as [Hra Hrn].
      rewrite append_heap_frame; [done|done| |done]. congruence.
Qed.

Lemma make_appends_ok vs st a ls :
  heap_ok (heap st) → allocates st (a :: ls) → length ls = length vs →
  ∃ st', make_appends vs st = Some (Some a, st') ∧
         heap_ok (heap st') ∧
         is_list st' (Some a) (zip ls vs) ∧
         (∀ r c, heap st !! r = Some (OVar c) → heap st' !! r = Some (OVar c)).
Proof.
  intros Hok (Ho & Hnd & Hf) Hlen.
  apply NoDup_cons in Hnd as [Hna Hnd]. apply Forall_cons in Hf as [[Hfa Hva] Hf].
  destruct (oracle st) as [|x o] eqn:Hor; [done|].
  simpl in Ho. injection Ho as -> Ho.
  unfold make_appends. rewrite (LinkedList_make_ok st a o) by done.
  set (st1 := State (<[a := OList None]> (heap st)) o).
  destruct (appends_ok vs st1 a [] ls) as (st' & Hrun & Hok' & Hl' & _ & Hfr).
  - by apply heap_ok_insert.
  - apply make_is_list.
  - split; [done|]. split; [done|]. apply Forall_forall. intros k Hk.
    rewrite Forall_forall in Hf. destruct (Hf k Hk) as [Hkf Hkv]. split; [|done].
    subst st1. cbn. rewrite lookup_insert_ne; [done|]. by intros ->.
  - done.
  - exists st'. rewrite Hrun. split; [done|]. split; [done|]. split; [done|].
    intros r c Hr. apply Hfr. subst st1. cbn. rewrite lookup_insert_ne; [done|].
    congruence.
Qed.

(** The first element equal to [v], when there is one. *)
Lemma first_match_split ns v :
  v ∈ ns.*2 → ∃ pre l post, ns = pre ++ (l, v) :: post ∧ v ∉ pre.*2.
Proof.
  induction ns as [|[l0 v0] ns IH]; simpl; [by intros ?%elem_of_nil|].
  intros Hin. destruct (decide (v0 = v)) as [->|Hne].
  - exists [], l0, ns. split; [done|]. apply not_elem_of_nil.
  - apply elem_of_cons in Hin as [->|Hin]; [done|].
    destruct (IH Hin) as (pre & l & post & -> & Hpre).
    exists ((l0, v0) :: pre), l, post. split; [done|]. simpl.
    apply not_elem_of_cons. split; [congruence|done].
Qed.

(** Storing into a variable of the caller leaves every list as it is. *)
Lemma is_list_store_var st list ns r c (o : option T) :
  is_list st list ns → heap st !! r = Some (OVar c) →
  is_list (set_heap (<[r := OVar o]> (heap st)) st) list ns.
Proof.
  intros Hl Hr. pose proof Hl as (a & -> & Ha & Hc).
  destruct (var_off_list _ _ _ _ _ Hl Hr) as [Hra Hrn].
  exists a. split; [done|]. cbn. split; [by rewrite lookup_insert_ne|].
  by apply chain_insert_ne.
Qed.

(** *** free *)

Lemma free_loop_chain : ∀ ns n st,
  chain (heap st) ns → length ns < n →
  free_loop n (first_node ns) st
    = Some (set_heap (foldl (λ h l, delete l h) (heap st) ns.*1) st).
Proof.
  induction ns as [|[l v] ns IH]; intros [|n] st Hc Hn; simpl in *; try lia.
  - by destruct st.
  - rewrite (get_next_chain st l v ns) by done. cbn [mbind option_bind].
    pose proof (chain_NoDup (heap st) ((l, v) :: ns) Hc) as Hnd. simpl in Hnd.
    apply NoDup_cons in Hnd as [Hnl _]. destruct Hc as [Hl Hc].
    unfold free. cbn [mbind option_bind]. rewrite Hl. cbn [mbind option_bind].
    rewrite IH; [done| |lia]. cbn. by apply chain_delete_ne.
Qed.

Lemma foldl_delete_lookup_ne (h : gmap loc (obj T)) (ls : list loc) k :
  k ∉ ls → foldl (λ h l, delete l h) h ls !! k = h !! k.
Proof.
  revert h. induction ls as [|l ls IH]; intros h Hk; simpl; [done|].
  apply not_elem_of_cons in Hk as [Hne Hk]. rewrite IH by done.
  by rewrite lookup_delete_ne.
Qed.

(** [free] releases every node and then the list struct. *)
Lemma LinkedList_free_ok st a ns :
  is_list st (Some a) ns →
  LinkedList_free (Some a) st
    = Some (tt, set_heap (delete a (foldl (λ h l, delete l h) (heap st) ns.*1)) st).
Proof.
  intros Hl. unfold LinkedList_free.
  rewrite (get_head_is_list _ _ _ Hl). cbn [mbind option_bind].
  pose proof (is_list_chain _ _ _ Hl) as Hc.
  pose proof (chain_length_size _ _ Hc) as Hs.
  rewrite free_loop_chain by (done || unfold fuel; lia).
  cbn [mbind option_bind]. unfold free. cbn.
  destruct Hl as (a' & [= <-] & Ha & _).
  rewrite foldl_delete_lookup_ne.
  2:{ eapply chain_not_node; [done|]. intros ??. congruence. }
  by rewrite Ha.
Qed.

Lemma list_inv_intro st list ns :
  heap_ok (heap st) → is_list st list ns → list_inv st list.
Proof.
  intros Hok Hl. exists ns. split; [done|]. split; [by eapply is_list_NoDup|].
  by apply LinkedList_len_spec.
Qed.

Lemma heap_ok_foldl_delete (h : gmap loc (obj T)) (ls : list loc) :
  heap_ok h → heap_ok (foldl (λ h l, delete l h) h ls).
Proof.
  revert h. induction ls as [|l ls IH]; intros h Hok; simpl; [done|].
  by apply IH, heap_ok_delete.
Qed.

End Specs.

(** ** The properties of the specification *)

Section Claims.
Context {PF : Platform} {T : Type} `{EqDecision T}.
Implicit Types (st : state T) (ns : nodes T) (l r a : loc) (v : T).

(** C4. After [make()] and the appends of any values [vs], all of whose
    allocations succeed, [len] returns exactly the number of values
    appended; with no append at all, on the freshly made list, it
    returns 0. *)
Theorem len_after_appends st vs a ls :
  heap_ok (heap st) → allocates st (a :: ls) → length ls = length vs →
  ∃ st', make_appends vs st = Some (Some a, st') ∧
         LinkedList_len (Some a) st' = Some (N.of_nat (length vs)) ∧
         (vs = [] → LinkedList_len (Some a) st' = Some 0%N).
Proof.
  intros Hok Hal Hlen.
  destruct (make_appends_ok vs st a ls Hok Hal Hlen) as (st' & Hrun & Hok' & Hl & _).
  exists st'. split; [done|].
  rewrite (LinkedList_len_spec _ _ _ Hok' Hl).
  rewrite length_zip_with. split; [f_equal; lia|]. intros ->. simpl in *.
  f_equal. lia.
Qed.

(** C2. After [make()] and the appends of [v0 .. vn-1] in this order,
    [get(i)] succeeds with [vi] for every [i < n]: the nodes of the list
    are the appended values in the order of the appends, each new one
    after all the earlier ones. *)
Theorem get_after_appends st vs a ls r c :
  heap_ok (heap st) → allocates st (a :: ls) → length ls = length vs →
  heap st !! r = Some (OVar c) →
  ∃ st', make_appends vs st = Some (Some a, st') ∧
         is_list st' (Some a) (zip ls vs) ∧
         ∀ i v, vs !! i = Some v →
           LinkedList_get (N.of_nat i) (Some a) (Some r) st'
             = Some (GOT_OK, set_heap (<[r := OVar (Some v)]> (heap st')) st').
Proof.
  intros Hok Hal Hlen Hr.
  destruct (make_appends_ok vs st a ls Hok Hal Hlen) as (st' & Hrun & Hok' & Hl & Hfr).
  exists st'. split; [done|]. split; [done|]. intros i v Hi.
  assert (i < length ls) as Hlt by (rewrite Hlen; by eapply lookup_lt_Some).
  destruct (lookup_lt_is_Some_2 _ _ Hlt) as [l Hli].
  eapply (LinkedList_get_ok st' (Some a) (zip ls vs) _ r c l v); eauto.
  rewrite Nat2N.id. apply lookup_zip_with_Some. eauto.
Qed.

(** C3. [get] tests for its errors in a fixed order.  On a list without
    elements it returns [GOT_EMPTY_LIST], whatever the index.  On a list
    with elements it returns [GOT_OUT_OF_BOUNDS] for every index that is at
    least the length, and succeeds at the index just below the length. *)
Theorem get_error_precedence st list ns index r c :
  heap_ok (heap st) → is_list st list ns → heap st !! r = Some (OVar c) →
  (ns = [] → LinkedList_get index list (Some r) st = Some (GOT_EMPTY_LIST, st)) ∧
  (ns ≠ [] → (N.of_nat (length ns) ≤ index)%N →
     LinkedList_get index list (Some r) st = Some (GOT_OUT_OF_BOUNDS, st)) ∧
  (ns ≠ [] → (index + 1 = N.of_nat (length ns))%N →
     fst <$> LinkedList_get index list (Some r) st = Some GOT_OK).
Proof.
  intros Hok Hl Hr. rewrite (LinkedList_get_spec _ _ ns) by done.
  unfold get_outcome. split; [by intros ->|].
  destruct ns as [|n0 ns']; [by split|]. set (ns := n0 :: ns') in *. split.
  - intros _ Hle. rewrite lookup_ge_None_2 by lia. done.
  - intros _ Hk. assert (N.to_nat index < length ns) as Hlt by lia.
    destruct (lookup_lt_is_Some_2 _ _ Hlt) as [[l v] ->].
    unfold store_var. cbn. by rewrite Hr.
Qed.

(** C1. Deleting a value that occurs in the list, its first occurrence
    being the node at [l] after the nodes [pre], returns 0, frees that
    node and links around it: the node before it, when there is one, now
    points to the node after it and [head] is as before; when the node was
    the first, [head] now points to the node after it, and is [NULL] when
    it was the only node.  The list is then [pre ++ post], one element
    shorter, and [get] at the position of the removed node returns the
    value that followed it. *)
Theorem delete_relinks st a pre l v post r c :
  heap_ok (heap st) → is_list st (Some a) (pre ++ (l, v) :: post) →
  v ∉ pre.*2 → heap st !! r = Some (OVar c) →
  ∃ st',
    LinkedList_delete v (Some a) st = Some (0%Z, st') ∧
    heap st' !! l = None ∧
    match last pre with
    | Some (lp, vp) =>
        heap st' !! lp = Some (ONode vp (first_node post)) ∧
        heap st' !! a = Some (OList (first_node pre))
    | None => heap st' !! a = Some (OList (first_node post))
    end ∧
    is_list st' (Some a) (pre ++ post) ∧
    LinkedList_len (Some a) st' = Some (N.of_nat (length pre + length post)) ∧
    ∀ lq vq post', post = (lq, vq) :: post' →
      LinkedList_get (N.of_nat (length pre)) (Some a) (Some r) st'
        = Some (GOT_OK, set_heap (<[r := OVar (Some vq)]> (heap st')) st').
Proof.
  intros Hok Hl Hv Hr.
  pose proof (delete_heap_is_list _ _ _ _ _ _ Hl) as Hl'.
  pose proof (delete_heap_ok _ _ _ _ _ _ Hok Hl) as Hok'.
  set (st' := set_heap (delete_heap a pre l post (heap st)) st) in *.
  exists st'. split; [by apply LinkedList_delete_found|].
  pose proof (is_list_chain _ _ _ Hl) as Hc.
  pose proof (chain_NoDup _ _ Hc) as Hnd.
  pose proof Hl as (a' & [= <-] & Ha & _).
  assert (a ∉ (pre ++ (l, v) :: post).*1) as Hna.
  { eapply chain_not_node; [done|]. intros ??. congruence. }
  rewrite fmap_app in Hna, Hnd. simpl in Hna, Hnd.
  apply not_elem_of_app in Hna as [Hnpre Hna].
  apply not_elem_of_cons in Hna as [Hal _].
  apply NoDup_app in Hnd as (_ & Hdisj & _).
  split; [|split; [|split; [done|split]]].
  - subst st'. cbn. unfold delete_heap.
    destruct (last pre) as [[??]|]; apply lookup_delete_eq.
  - subst st'. cbn. unfold delete_heap.
    destruct (last pre) as [[lp vp]|] eqn:Hlast.
    + apply last_Some in Hlast as [pre0 ->].
      assert (lp ∈ (pre0 ++ [(lp, vp)]).*1) as Hin
        by (rewrite fmap_app; apply elem_of_app; right; left).
      assert (lp ≠ l) by (intros ->; apply (Hdisj l Hin); left).
      assert (a ≠ lp) by (intros ->; done).
      rewrite !lookup_delete_ne by done. rewrite lookup_insert_eq.
      rewrite lookup_insert_ne by done. rewrite Ha. split; [done|].
      by destruct pre0 as [|[??]?].
    + rewrite lookup_delete_ne by done. by rewrite lookup_insert_eq.
  - rewrite (LinkedList_len_spec st' _ _ Hok' Hl'). by rewrite length_app.
  - intros lq vq post' ->.
    assert (heap st' !! r = Some (OVar c)) as Hr'.
    { subst st'. cbn. destruct (var_off_list _ _ _ _ _ Hl Hr) as [Hra Hrn].
      rewrite fmap_app in Hrn. simpl in Hrn.
      apply not_elem_of_app in Hrn as [Hrpre Hrn].
      apply not_elem_of_cons in Hrn as [Hrl _]. rewrite delete_heap_frame; [done|done|].
      destruct (last pre) as [[lp vp]|] eqn:Hlast; simpl; [|done].
      intros ->. apply Hrpre. apply last_Some in Hlast as [pre0 ->].
      rewrite fmap_app. apply elem_of_app. right. left. }
    eapply (LinkedList_get_ok st' (Some a) _ _ r c lq vq); eauto.
    rewrite Nat2N.id. by rewrite list_lookup_middle.
Qed.

(** C5. Of several elements equal to the value, [delete] removes the
    leftmost and stops: the nodes before it and all the nodes after it,
    equal to the value or not, stay in the list in their order.  The nodes
    after it are not written to, nor are those before it, but for the
    [next] of its immediate predecessor. *)
Theorem delete_first_match_only st a pre l v post :
  is_list st (Some a) (pre ++ (l, v) :: post) → v ∉ pre.*2 →
  ∃ st',
    LinkedList_delete v (Some a) st = Some (0%Z, st') ∧
    is_list st' (Some a) (pre ++ post) ∧
    (∀ k, k ∈ post.*1 → heap st' !! k = heap st !! k) ∧
    (∀ k, k ∈ (removelast pre).*1 → heap st' !! k = heap st !! k) ∧
    length (filter (λ n, n.2 = v) (pre ++ post))
      = length (filter (λ n, n.2 = v) post).
Proof.
  intros Hl Hv.
  exists (set_heap (delete_heap a pre l post (heap st)) st).
  split; [by apply LinkedList_delete_found|].
  split; [by eapply delete_heap_is_list|].
  pose proof (is_list_chain _ _ _ Hl) as Hc.
  pose proof (chain_NoDup _ _ Hc) as Hnd.
  pose proof Hl as (a' & [= <-] & Ha & _).
  assert (a ∉ (pre ++ (l, v) :: post).*1) as Hna.
  { eapply chain_not_node; [done|]. intros ??. congruence. }
  assert (∀ k, k ∈ (pre ++ (l, v) :: post).*1 → k ≠ a) as Hka by (by intros k ? ->).
  rewrite fmap_app in Hnd, Hka. simpl in Hnd, Hka.
  apply NoDup_app in Hnd as (Hndpre & Hdisj & Hndpost).
  apply NoDup_cons in Hndpost as [Hnl _].
  split; [|split].
  - intros k Hk. cbn. apply delete_heap_frame; [by intros ->|].
    destruct (last pre) as [[lp vp]|] eqn:Hlast; simpl.
    + intros ->. apply (Hdisj lp); [|by right].
      apply last_Some in Hlast as [pre0 ->].
      rewrite fmap_app. apply elem_of_app. right. left.
    + apply Hka. apply elem_of_app. right. by right.
  - intros k Hk. cbn.
    destruct (last pre) as [[lp vp]|] eqn:Hlast.
    + apply last_Some in Hlast as [pre0 Hpre]. rewrite Hpre in *.
      rewrite removelast_last in Hk. rewrite fmap_app in Hndpre, Hdisj.
      apply NoDup_app in Hndpre as (_ & Hd0 & _).
      apply delete_heap_frame.
      * intros ->. apply (Hdisj l); [|left]. apply elem_of_app. by left.
      * rewrite last_snoc. simpl. intros ->. apply (Hd0 lp Hk). left.
    + apply last_None in Hlast as ->. simpl in Hk. by apply elem_of_nil in Hk.
  - rewrite filter_app, length_app.
    assert (filter (λ n : loc * T, n.2 = v) pre = []) as ->; [|done].
    clear -Hv. induction pre as [|[l0 v0] pre IH]; [done|].
    simpl in Hv. apply not_elem_of_cons in Hv as [Hne Hv].
    rewrite filter_cons_False by (simpl; congruence). by apply IH.
Qed.

(** C6. Deleting a value that no element equals returns 1, the nonzero
    result for "not found", and changes nothing at all: the state after
    the call is the state before it. *)
Theorem delete_missing_unchanged st list ns v :
  is_list st list ns → v ∉ ns.*2 →
  ∃ rc, LinkedList_delete v list st = Some (rc, st) ∧ rc = 1%Z ∧ rc ≠ 0%Z.
Proof.
  intros Hl Hv. exists 1%Z. split; [by eapply LinkedList_delete_missing|done].
Qed.

(** C7, as amended. [append] returns nothing: its result is the same
    whether the allocation of the node succeeded or not.  When [malloc]
    returns a new node the value is appended after the elements there
    were; when [malloc] fails the heap after the call is the heap before
    it, so the list is unchanged and no partial link is attached. *)
Theorem append_allocation st a ns v :
  is_list st (Some a) ns →
  (∀ l, allocates st [l] →
     ∃ st', LinkedList_append v (Some a) st = Some (tt, st') ∧
            is_list st' (Some a) (ns ++ [(l, v)])) ∧
  (malloc_fails st →
     ∃ st', LinkedList_append v (Some a) st = Some (tt, st') ∧
            heap st' = heap st ∧ is_list st' (Some a) ns).
Proof.
  intros Hl. split.
  - intros l (Ho & _ & Hf). apply Forall_cons in Hf as [[Hfl _] _].
    destruct (oracle st) as [|x o] eqn:Hor; [done|]. simpl in Ho.
    injection Ho as ->. eexists. split; [by apply LinkedList_append_ok|].
    by apply append_heap_is_list.
  - intros Hf. eexists. split; [by eapply LinkedList_append_fail|].
    split; [done|]. destruct Hl as (a' & Ha' & Ha & Hc). by exists a'.
Qed.

(** C10. When [get] returns [GOT_EMPTY_LIST] or [GOT_OUT_OF_BOUNDS] it has
    written nothing: the state, and in it the caller's result variable, is
    as before the call.  Only with [GOT_OK] is the variable written, with
    the value of the element at the index, and nothing else is. *)
Theorem get_error_no_write st list ns index r c :
  heap_ok (heap st) → is_list st list ns → heap st !! r = Some (OVar c) →
  ∃ rc st',
    LinkedList_get index list (Some r) st = Some (rc, st') ∧
    (rc = GOT_OK ∨ rc = GOT_OUT_OF_BOUNDS ∨ rc = GOT_EMPTY_LIST) ∧
    (rc ≠ GOT_OK → st' = st ∧ heap st' !! r = Some (OVar c)) ∧
    (rc = GOT_OK →
       ∃ l v, ns !! N.to_nat index = Some (l, v) ∧
              st' = set_heap (<[r := OVar (Some v)]> (heap st)) st).
Proof.
  intros Hok Hl Hr. rewrite (LinkedList_get_spec _ _ ns) by done.
  unfold get_outcome. destruct ns as [|n0 ns'].
  { exists GOT_EMPTY_LIST, st. split; [done|]. split; [by right; right|].
    split; [done|]. done. }
  destruct ((n0 :: ns') !! N.to_nat index) as [[l v]|] eqn:Hi.
  - unfold store_var. cbn [mbind option_bind]. rewrite Hr.
    eexists _, _. split; [done|]. split; [by left|]. split; [done|].
    intros _. by exists l, v.
  - exists GOT_OUT_OF_BOUNDS, st. split; [done|]. split; [by right; left|].
    split; [done|]. done.
Qed.

(** C9. Every operation that can be called on a list keeps the structural
    invariant: [append], whether its allocation succeeds or fails,
    [delete], whether the value is found or not, [get] and [len]; and
    [make], which may return a new list, keeps it for the lists there
    are and establishes it for the new one.  [free], after which there is
    no list any more, returns as well. *)
Theorem operations_preserve_invariant st a :
  heap_ok (heap st) → malloc_ok st → list_inv st (Some a) →
  (∀ v, ∃ st', LinkedList_append v (Some a) st = Some (tt, st') ∧
               heap_ok (heap st') ∧ list_inv st' (Some a)) ∧
  (∀ v, ∃ rc st', LinkedList_delete v (Some a) st = Some (rc, st') ∧
                  heap_ok (heap st') ∧ list_inv st' (Some a)) ∧
  (∀ index r c, heap st !! r = Some (OVar c) →
     ∃ rc st', LinkedList_get index (Some a) (Some r) st = Some (rc, st') ∧
               heap_ok (heap st') ∧ list_inv st' (Some a)) ∧
  (∃ n, LinkedList_len (Some a) st = Some n) ∧
  (∃ p st', LinkedList_make st = (p, st') ∧ heap_ok (heap st') ∧
            list_inv st' (Some a) ∧ (p ≠ None → list_inv st' p)) ∧
  (∃ st', LinkedList_free (Some a) st = Some (tt, st') ∧ heap_ok (heap st') ∧
          heap st' !! a = None).
Proof.
  intros Hok Hm (ns & Hl & Hnd & Hlen).
  pose proof Hl as (a' & [= <-] & Ha & Hc).
  split; [|split; [|split; [|split; [|split]]]]; cycle 5.
  { eexists. split; [by eapply LinkedList_free_ok|]. cbn.
    split; [by apply heap_ok_delete, heap_ok_foldl_delete|apply lookup_delete_eq]. }
  - intros v. unfold malloc_ok in Hm.
    destruct (oracle st) as [|[l|] o] eqn:Hor.
    + eexists. split; [eapply LinkedList_append_fail; [done|]|].
      { unfold malloc_fails. by rewrite Hor. }
      split; [done|]. apply (list_inv_intro _ _ ns); [done|]. by exists a.
    + destruct Hm as [Hfl Hvl]. eexists.
      split; [by apply LinkedList_append_ok|].
      split; [by apply append_heap_ok|].
      eapply list_inv_intro; [by apply append_heap_ok|].
      by apply append_heap_is_list.
    + eexists. split; [eapply LinkedList_append_fail; [done|]|].
      { unfold malloc_fails. by rewrite Hor. }
      split; [done|]. apply (list_inv_intro _ _ ns); [done|]. by exists a.
  - intros v. destruct (decide (v ∈ ns.*2)) as [Hin|Hnin].
    + destruct (first_match_split _ _ Hin) as (pre & l & post & -> & Hpre).
      eexists _, _. split; [by apply LinkedList_delete_found|].
      split; [by eapply delete_heap_ok|].
      eapply list_inv_intro; [by eapply delete_heap_ok|].
      by eapply delete_heap_is_list.
    + exists 1%Z, st. split; [by eapply LinkedList_delete_missing|].
      split; [done|]. by eapply list_inv_intro.
  - intros index r c Hr. rewrite (LinkedList_get_spec _ _ ns) by done.
    unfold get_outcome.
    assert (list_inv st (Some a)) as Hinv by by eapply list_inv_intro.
    destruct ns as [|n0 ns']; [by eauto|].
    destruct ((n0 :: ns') !! N.to_nat index) as [[l v]|] eqn:Hi; [|by eauto].
    unfold store_var. cbn [mbind option_bind]. rewrite Hr.
    eexists _, _. split; [done|].
    assert (heap_ok (<[r := OVar (Some v)]> (heap st))) by by eapply heap_ok_update.
    split; [done|]. eapply list_inv_intro; [done|]. by eapply is_list_store_var.
  - eauto.
  - unfold LinkedList_make, malloc, malloc_ok in *.
    destruct (oracle st) as [|[l|] o] eqn:Hor.
    + exists None, st. split; [done|]. split; [done|].
      split; [by eapply list_inv_intro|done].
    + destruct Hm as [Hfl Hvl]. eexists _, _. split; [done|]. cbn.
      assert (heap_ok (<[l := OList None]> (heap st))) by by apply heap_ok_insert.
      split; [done|]. split.
      * eapply (list_inv_intro _ _ ns); [done|]. exists a. split; [done|]. cbn.
        assert (a ≠ l) by congruence.
        split; [by rewrite lookup_insert_ne|]. apply chain_insert_ne; [|done].
        intros Hin. destruct (chain_allocated _ _ _ Hc Hin). congruence.
      * intros _. eapply (list_inv_intro _ _ []); [done|]. apply make_is_list.
    + eexists None, _. split; [done|]. split; [done|]. split; [|done].
      eapply (list_inv_intro _ _ ns); [done|]. by exists a.
Qed.

End Claims.

(** ** The caller of main.c *)

Section MainClaims.
Context {PF : Platform}.

(** C8. [make()], then [append(12)], then [get(0)]: [get] returns [GOT_OK],
    the code 0, and the caller's result variable then holds 12.  [main]
    itself, which makes these calls, prints 0 and 12. *)
Theorem make_append_get_scenario (st : state Z) (r a l : loc) :
  heap_ok (heap st) → valid_addr r → allocates (declare r st) [a; l] →
  ∃ st1 st2 st3,
    make_appends [12%Z] (declare r st) = Some (Some a, st1) ∧
    LinkedList_get 0 (Some a) (Some r) st1 = Some (GOT_OK, st2) ∧
    GOT_OK = 0%Z ∧
    load_var (Some r) st2 = Some 12%Z ∧
    main r st = Some ([0%Z; 12%Z], st3).
Proof.
  intros Hok Hr Hal.
  assert (heap_ok (heap (declare r st))) as Hok0 by by apply heap_ok_insert.
  destruct (make_appends_ok [12%Z] (declare r st) a [l] Hok0 Hal eq_refl)
    as (st1 & Hrun & Hok1 & Hl1 & Hfr).
  assert (heap st1 !! r = Some (OVar None)) as Hr1.
  { apply Hfr. cbn. by rewrite lookup_insert_eq. }
  pose proof (LinkedList_get_ok st1 (Some a) _ 0%N r None l 12%Z Hok1 Hl1 Hr1 eq_refl)
    as Hget.
  set (st2 := set_heap (<[r := OVar (Some 12%Z)]> (heap st1)) st1) in *.
  assert (load_var (Some r) st2 = Some 12%Z) as Hload.
  { unfold load_var. cbn. by rewrite lookup_insert_eq. }
  pose proof (is_list_store_var _ _ _ _ _ (Some 12%Z) Hl1 Hr1) as Hl2.
  pose proof (LinkedList_free_ok _ _ _ Hl2) as Hfree.
  eexists st1, st2, _. split; [done|]. split; [done|]. split; [done|].
  split; [done|]. unfold main. unfold make_appends in Hrun.
  destruct (LinkedList_make (declare r st)) as [ll s0]. simpl in Hrun.
  destruct (LinkedList_append 12%Z ll s0) as [[[] s1]|]; simpl in Hrun; [|done].
  injection Hrun as -> ->. cbn [mbind option_bind].
  rewrite Hget. cbn [mbind option_bind]. rewrite Hload. cbn [mbind option_bind].
  fold st2 in Hfree. rewrite Hfree. done.
Qed.

End MainClaims.

(** ** The properties at concrete states *)

Section Concrete.
#[local] Existing Instance LP64.

Local Ltac holds := by apply (bool_decide_unpack _); vm_compute.

Lemma len_after_appends_witness :
  ∃ st', make_appends [10; 20; 30]%Z st_fresh = Some (Some 1%N, st') ∧
         LinkedList_len (Some 1%N) st' = Some 3%N.
Proof.
  destruct (len_after_appends st_fresh [10; 20; 30]%Z 1%N [2; 3; 4]%N)
    as (st' & Hrun & Hlen & _); [holds|holds|reflexivity|].
  exists st'. split; assumption.
Defined.

Lemma get_after_appends_witness :
  ∃ st', make_appends [10; 20; 30]%Z st_fresh = Some (Some 1%N, st') ∧
         fst <$> LinkedList_get 0 (Some 1%N) (Some 9%N) st' = Some (GOT_OK) ∧
         (st2 ← snd <$> LinkedList_get 2 (Some 1%N) (Some 9%N) st';
          load_var (Some 9%N) st2) = Some 30%Z.
Proof.
  destruct (get_after_appends st_fresh [10; 20; 30]%Z 1%N [2; 3; 4]%N 9%N None)
    as (st' & Hrun & _ & Hget); [holds|holds|reflexivity|reflexivity|].
  exists st'. split; [assumption|].
  pose proof (Hget 0%nat 10%Z eq_refl) as H0. pose proof (Hget 2%nat 30%Z eq_refl) as H2.
  change (N.of_nat 0) with 0%N in H0. change (N.of_nat 2) with 2%N in H2.
  rewrite H0, H2. split; [reflexivity|].
  cbn. unfold load_var. cbn. by rewrite lookup_insert_eq.
Defined.

Lemma get_error_precedence_witness :
  LinkedList_get 0 (Some 1%N) (Some 9%N) st_nil = Some (GOT_EMPTY_LIST, st_nil) ∧
  LinkedList_get 3 (Some 1%N) (Some 9%N) st_abc = Some (GOT_OUT_OF_BOUNDS, st_abc) ∧
  fst <$> LinkedList_get 2 (Some 1%N) (Some 9%N) st_abc = Some GOT_OK.
Proof.
  split; [|split].
  - apply (get_error_precedence st_nil (Some 1%N) [] 0%N 9%N None);
      [holds|holds|reflexivity|reflexivity].
  - apply (get_error_precedence st_abc (Some 1%N)
             [(2%N, 10%Z); (3%N, 20%Z); (4%N, 30%Z)] 3%N 9%N None);
      [holds|holds|reflexivity|discriminate|reflexivity].
  - apply (get_error_precedence st_abc (Some 1%N)
             [(2%N, 10%Z); (3%N, 20%Z); (4%N, 30%Z)] 2%N 9%N None);
      [holds|holds|reflexivity|discriminate|reflexivity].
Defined.

Lemma delete_relinks_witness :
  ∃ st', LinkedList_delete 20%Z (Some 1%N) st_abc = Some (0%Z, st') ∧
         is_list st' (Some 1%N) [(2%N, 10%Z); (4%N, 30%Z)] ∧
         LinkedList_len (Some 1%N) st' = Some 2%N ∧
         LinkedList_get 1 (Some 1%N) (Some 9%N) st'
           = Some (GOT_OK, set_heap (<[9%N := OVar (Some 30%Z)]> (heap st')) st').
Proof.
  destruct (delete_relinks st_abc 1%N [(2%N, 10%Z)] 3%N 20%Z [(4%N, 30%Z)] 9%N None)
    as (st' & Hd & _ & _ & Hl & Hlen & Hget); [holds|holds|holds|reflexivity|].
  exists st'. split; [assumption|]. split; [assumption|]. split; [assumption|].
  apply (Hget 4%N 30%Z []). reflexivity.
Defined.

Lemma delete_first_match_only_witness :
  ∃ st', LinkedList_delete 10%Z (Some 1%N) st_aba = Some (0%Z, st') ∧
         is_list st' (Some 1%N) [(3%N, 20%Z); (4%N, 10%Z)].
Proof.
  destruct (delete_first_match_only st_aba 1%N [] 2%N 10%Z [(3%N, 20%Z); (4%N, 10%Z)])
    as (st' & Hd & Hl & _); [holds|holds|].
  exists st'. split; assumption.
Defined.

Lemma delete_missing_unchanged_witness :
  LinkedList_delete 40%Z (Some 1%N) st_abc = Some (1%Z, st_abc).
Proof.
  destruct (delete_missing_unchanged st_abc (Some 1%N)
              [(2%N, 10%Z); (3%N, 20%Z); (4%N, 30%Z)] 40%Z)
    as (rc & Hd & -> & _); [holds|holds|].
  exact Hd.
Defined.

Lemma append_allocation_witness :
  (∃ st', LinkedList_append 40%Z (Some 1%N) st_abc = Some (tt, st') ∧
          is_list st' (Some 1%N) [(2%N, 10%Z); (3%N, 20%Z); (4%N, 30%Z); (5%N, 40%Z)]) ∧
  (∃ st', LinkedList_append 40%Z (Some 1%N) st_oom = Some (tt, st') ∧
          heap st' = heap st_oom).
Proof.
  split.
  - destruct (append_allocation st_abc 1%N
                [(2%N, 10%Z); (3%N, 20%Z); (4%N, 30%Z)] 40%Z) as [Hok _]; [holds|].
    apply (Hok 5%N). holds.
  - destruct (append_allocation st_oom 1%N
                [(2%N, 10%Z); (3%N, 20%Z); (4%N, 30%Z)] 40%Z) as [_ Hfail]; [holds|].
    destruct Hfail as (st' & Ha & Hh & _); [holds|]. exists st'. split; assumption.
Defined.

(** C7, as the specification has it, fails.  With the list [10, 20, 30]
    and no memory left, [append(40)] returns as it does when memory is
    left: nothing.  Its caller is not told of the failure. *)
Lemma append_signals_failure_false :
  LinkedList_append 40%Z (Some 1%N) st_oom = Some (tt, State (heap st_abc) []) ∧
  fst <$> LinkedList_append 40%Z (Some 1%N) st_abc = Some tt ∧
  ¬ append_signals_failure Z.
Proof.
  split; [by vm_compute|]. split; [by vm_compute|].
  intros Hsig.
  apply (Hsig 40%Z 1%N [(2%N, 10%Z); (3%N, 20%Z); (4%N, 30%Z)] st_oom st_abc 5%N);
    [holds|holds|holds|holds|].
  by vm_compute.
Qed.

Lemma make_append_get_scenario_witness :
  ∃ st3, main 9%N st_start = Some ([0%Z; 12%Z], st3).
Proof.
  destruct (make_append_get_scenario st_start 9%N 1%N 2%N)
    as (st1 & st2 & st3 & _ & _ & _ & _ & Hmain); [holds|holds|holds|].
  exists st3. exact Hmain.
Defined.

Lemma operations_preserve_invariant_witness :
  ∃ st', LinkedList_append 40%Z (Some 1%N) st_abc = Some (tt, st') ∧
         list_inv st' (Some 1%N).
Proof.
  destruct (operations_preserve_invariant st_abc 1%N) as [Happ _];
    [holds|holds| |].
  - exists [(2%N, 10%Z); (3%N, 20%Z); (4%N, 30%Z)].
    split; [holds|]. split; [holds|reflexivity].
  - destruct (Happ 40%Z) as (st' & Ha & _ & Hinv). exists st'. split; assumption.
Defined.

Lemma get_error_no_write_witness :
  ∃ rc st', LinkedList_get 7 (Some 1%N) (Some 9%N) st_abc = Some (rc, st') ∧
            (rc ≠ GOT_OK → st' = st_abc ∧ heap st' !! 9%N = Some (OVar None)).
Proof.
  destruct (get_error_no_write st_abc (Some 1%N)
              [(2%N, 10%Z); (3%N, 20%Z); (4%N, 30%Z)] 7%N 9%N None)
    as (rc & st' & Hg & _ & Herr & _); [holds|holds|reflexivity|].
  exists rc, st'. split; assumption.
Defined.

End Concrete.

(** ** Further facts about chains and runs *)

Section MoreFacts.
Context {PF : Platform} {T : Type} `{EqDecision T}.
Implicit Types (h : gmap loc (obj T)) (st : state T) (ns : nodes T) (l r a : loc) (v : T).

(** A chain only depends on the objects at its nodes. *)
Lemma chain_agree h h' ns :
  (∀ k, k ∈ ns.*1 → h' !! k = h !! k) → chain h ns → chain h' ns.
Proof.
  induction ns as [|[l v] ns IH]; simpl; [done|].
  intros Hag [Hl Hc]. split.
  - rewrite Hag; [done|left].
  - apply IH; [|done]. intros k Hk. apply Hag. by right.
Qed.

Lemma is_list_agree st st' b ns :
  is_list st (Some b) ns → heap st' !! b = heap st !! b →
  (∀ k, k ∈ ns.*1 → heap st' !! k = heap st !! k) →
  is_list st' (Some b) ns.
Proof.
  intros (b' & [= <-] & Hb & Hc) Hab Hag. exists b. split; [done|].
  split; [by rewrite Hab|by eapply chain_agree].
Qed.

Lemma foldl_delete_lookup_in h (ls : list loc) k :
  k ∈ ls → foldl (λ h l, delete l h) h ls !! k = None.
Proof.
  revert h. induction ls as [|l ls IH]; intros h Hk; simpl.
  - by apply elem_of_nil in Hk.
  - destruct (decide (k ∈ ls)) as [Hin|Hnin]; [by apply IH|].
    apply elem_of_cons in Hk as [->|Hk]; [|done].
    rewrite foldl_delete_lookup_ne by done. apply lookup_delete_eq.
Qed.

Lemma zip_fst_length (ls : list loc) (vs : list T) :
  length ls = length vs → (zip ls vs).*1 = ls.
Proof.
  revert vs. induction ls as [|l ls IH]; intros [|v vs] Hlen; simpl in *;
    try done. f_equal. apply IH. lia.
Qed.

(** A run of appends writes to the list struct, to the nodes of the list
    and to the nodes it allocates, and to nothing else. *)
Lemma appends_frame vs : ∀ st st' a ns ls,
  is_list st (Some a) ns → allocates st ls → length ls = length vs →
  appends vs (Some a) st = Some st' →
  ∀ k, k ≠ a → k ∉ ns.*1 → k ∉ ls → heap st' !! k = heap st !! k.
Proof.
  induction vs as [|v vs IH]; intros st st' a ns ls Hl Hal Hlen Hrun k Hka Hkn Hkl.
  - simpl in Hrun. by injection Hrun as <-.
  - destruct ls as [|l ls]; [done|]. simpl in Hlen.
    destruct Hal as (Ho & Hnd & Hf).
    apply NoDup_cons in Hnd as [Hnl Hnd]. apply Forall_cons in Hf as [[Hfl Hvl] Hf].
    destruct (oracle st) as [|x o] eqn:Hor; [done|].
    simpl in Ho. injection Ho as -> Ho.
    simpl in Hrun. rewrite (LinkedList_append_ok st a ns v l o) in Hrun by done.
    cbn [mbind option_bind] in Hrun.
    apply not_elem_of_cons in Hkl as [Hkl Hkls].
    set (st1 := State (append_heap a ns l v (heap st)) o) in *.
    rewrite (IH st1 st' a (ns ++ [(l, v)]) ls); try done.
    + subst st1. cbn. by apply append_heap_frame.
    + by apply append_heap_is_list.
    + split; [done|]. split; [done|]. apply Forall_forall. intros j Hj.
      rewrite Forall_forall in Hf. destruct (Hf j Hj) as [Hjf Hjv]. split; [|done].
      subst st1. cbn. rewrite append_heap_frame; [done| | |].
      * destruct Hl as (a' & [= <-] & Ha & _). congruence.
      * by intros ->.
      * intros Hin. destruct (chain_allocated _ _ _ (is_list_chain _ _ _ Hl) Hin).
        congruence.
    + lia.
    + rewrite fmap_app. simpl. intros [Hin|Hin]%elem_of_app; [done|].
      apply list_elem_of_singleton in Hin. done.
Qed.

(** The heap after [append] and then [delete] of a value that was not in
    the list is the heap before. *)
Lemma delete_append_heap st a ns l v :
  is_list st (Some a) ns → heap st !! l = None →
  delete_heap a ns l [] (append_heap a ns l v (heap st)) = heap st.
Proof.
  intros Hl Hfresh. pose proof (is_list_chain _ _ _ Hl) as Hc.
  destruct Hl as (a' & [= <-] & Ha & _).
  unfold delete_heap, append_heap.
  destruct (last ns) as [[lt vt]|] eqn:Hlast.
  - pose proof (chain_last _ _ _ _ Hc Hlast) as Hlt.
    assert (lt ≠ l) by congruence.
    apply map_eq. intros k. destruct (decide (k = l)) as [->|Hkl].
    + by rewrite lookup_delete_eq.
    + rewrite lookup_delete_ne by done. destruct (decide (k = lt)) as [->|Hklt].
      * by rewrite lookup_insert_eq.
      * by rewrite !lookup_insert_ne.
  - apply last_None in Hlast as ->. simpl in Ha.
    assert (a ≠ l) by congruence.
    apply map_eq. intros k. destruct (decide (k = l)) as [->|Hkl].
    + by rewrite lookup_delete_eq.
    + rewrite lookup_delete_ne by done. destruct (decide (k = a)) as [->|Hka].
      * by rewrite lookup_insert_eq.
      * by rewrite !lookup_insert_ne.
Qed.

End MoreFacts.

(** ** Further properties of the list functions *)

Section Further.
Context {PF : Platform} {T : Type} `{EqDecision T}.
Implicit Types (st : state T) (ns : nodes T) (l r a b : loc) (v : T).

(** X1. [free] releases the list struct and every node of the list, and
    leaves every other object of the heap as it was. *)
Theorem free_releases_all st a ns :
  is_list st (Some a) ns →
  ∃ st', LinkedList_free (Some a) st = Some (tt, st') ∧
         heap st' !! a = None ∧
         (∀ l, l ∈ ns.*1 → heap st' !! l = None) ∧
         (∀ k, k ≠ a → k ∉ ns.*1 → heap st' !! k = heap st !! k) ∧
         oracle st' = oracle st.
Proof.
  intros Hl. eexists. split; [by apply LinkedList_free_ok|]. cbn.
  pose proof (is_list_chain _ _ _ Hl) as Hc.
  destruct Hl as (a' & [= <-] & Ha & _).
  assert (a ∉ ns.*1) as Hna.
  { eapply chain_not_node; [done|]. intros ??. congruence. }
  split; [apply lookup_delete_eq|]. split; [|split; [|done]].
  - intros l Hin. rewrite lookup_delete_ne by (by intros ->).
    by apply foldl_delete_lookup_in.
  - intros k Hka Hk. rewrite lookup_delete_ne by done.
    by apply foldl_delete_lookup_ne.
Qed.

(** X2. [make], any number of appends and then [free] give back all the
    memory they took: the heap is again the heap before [make]. *)
Theorem make_appends_free_restores st vs a ls :
  heap_ok (heap st) → allocates st (a :: ls) → length ls = length vs →
  ∃ st1 st2, make_appends vs st = Some (Some a, st1) ∧
             LinkedList_free (Some a) st1 = Some (tt, st2) ∧
             heap st2 = heap st.
Proof.
  intros Hok Hal Hlen.
  destruct (make_appends_ok vs st a ls Hok Hal Hlen) as (st1 & Hrun & _ & Hl & _).
  exists st1. eexists. split; [done|].
  split; [by apply LinkedList_free_ok|]. cbn.
  destruct Hal as (Ho & Hnd & Hf).
  apply NoDup_cons in Hnd as [Hna Hnd]. apply Forall_cons in Hf as [[Hfa Hva] Hf].
  destruct (oracle st) as [|x o] eqn:Hor; [done|].
  simpl in Ho. injection Ho as -> Ho.
  unfold make_appends in Hrun. rewrite (LinkedList_make_ok st a o) in Hrun by done.
  set (st0 := State (<[a := OList None]> (heap st)) o) in *.
  destruct (appends vs (Some a) st0) as [st1'|] eqn:Happ; [|done].
  simpl in Hrun. injection Hrun as ->.
  assert (allocates st0 ls) as Hal0.
  { split; [done|]. split; [done|]. apply Forall_forall. intros k Hk.
    rewrite Forall_forall in Hf. destruct (Hf k Hk) as [Hkf Hkv]. split; [|done].
    subst st0. cbn. rewrite lookup_insert_ne; [done|]. by intros ->. }
  pose proof (appends_frame vs st0 st1 a [] ls (make_is_list _ _ _) Hal0 Hlen Happ)
    as Hfr.
  rewrite zip_fst_length by done.
  apply map_eq. intros k. destruct (decide (k = a)) as [->|Hka].
  { by rewrite lookup_delete_eq. }
  rewrite lookup_delete_ne by done.
  destruct (decide (k ∈ ls)) as [Hin|Hnin].
  - rewrite foldl_delete_lookup_in by done.
    rewrite Forall_forall in Hf. by destruct (Hf k Hin) as [-> _].
  - rewrite foldl_delete_lookup_ne by done.
    rewrite Hfr; [|done|apply not_elem_of_nil|done].
    subst st0. cbn. by rewrite lookup_insert_ne.
Qed.

(** X3. An [append] whose allocation fails cannot be told from no call by
    [len] and [get]: they return what they returned before and [get]
    leaves the same heap.  On a list without elements [get] still returns
    [GOT_EMPTY_LIST]. *)
Theorem failed_append_invisible st list ns v :
  heap_ok (heap st) → is_list st list ns → malloc_fails st →
  ∃ st', LinkedList_append v list st = Some (tt, st') ∧
         LinkedList_len list st' = LinkedList_len list st ∧
         (∀ index result,
            prod_map id heap <$> LinkedList_get index list result st'
              = prod_map id heap <$> LinkedList_get index list result st) ∧
         (ns = [] → ∀ index result,
            LinkedList_get index list result st' = Some (GOT_EMPTY_LIST, st')).
Proof.
  intros Hok Hl Hf. eexists. split; [by eapply LinkedList_append_fail|].
  set (st' := State (heap st) (tail (oracle st))).
  assert (is_list st' list ns) as Hl'.
  { destruct Hl as (a & -> & Ha & Hc). by exists a. }
  split; [|split].
  - by rewrite (LinkedList_len_spec st' _ ns), (LinkedList_len_spec st _ ns).
  - intros index result.
    rewrite (LinkedList_get_spec st' _ ns), (LinkedList_get_spec st _ ns) by done.
    unfold get_outcome. destruct ns as [|n0 ns']; [done|].
    destruct ((n0 :: ns') !! N.to_nat index) as [[l w]|]; [|done].
    unfold store_var. destruct result as [r|]; [|done]. cbn.
    by destruct (heap st !! r) as [[| |]|].
  - intros -> index result. by rewrite (LinkedList_get_spec st' _ []).
Qed.

(** X4. A successful [append] to any list makes [len] one larger, leaves
    every element at its index and puts the new value at the index that
    was the length. *)
Theorem append_extends st a ns v l r c :
  heap_ok (heap st) → is_list st (Some a) ns → allocates st [l] →
  heap st !! r = Some (OVar c) →
  ∃ st', LinkedList_append v (Some a) st = Some (tt, st') ∧
         LinkedList_len (Some a) st = Some (N.of_nat (length ns)) ∧
         LinkedList_len (Some a) st' = Some (N.of_nat (length ns) + 1)%N ∧
         (∀ i k w, ns !! i = Some (k, w) →
            LinkedList_get (N.of_nat i) (Some a) (Some r) st
              = Some (GOT_OK, set_heap (<[r := OVar (Some w)]> (heap st)) st) ∧
            LinkedList_get (N.of_nat i) (Some a) (Some r) st'
              = Some (GOT_OK, set_heap (<[r := OVar (Some w)]> (heap st')) st')) ∧
         LinkedList_get (N.of_nat (length ns)) (Some a) (Some r) st'
           = Some (GOT_OK, set_heap (<[r := OVar (Some v)]> (heap st')) st').
Proof.
  intros Hok Hl (Ho & _ & Hf) Hr. apply Forall_cons in Hf as [[Hfl Hvl] _].
  destruct (oracle st) as [|x o] eqn:Hor; [done|]. simpl in Ho. injection Ho as ->.
  pose proof (append_heap_is_list st a ns v l o Hl Hfl) as Hl'.
  pose proof (append_heap_ok st a ns l v Hok Hl Hvl) as Hok'.
  set (st' := State (append_heap a ns l v (heap st)) o) in *.
  assert (heap st' !! r = Some (OVar c)) as Hr'.
  { subst st'. cbn. destruct (var_off_list _ _ _ _ _ Hl Hr) as [Hra Hrn].
    rewrite append_heap_frame; [done|done| |done]. congruence. }
  exists st'. split; [by apply LinkedList_append_ok|].
  split; [by apply LinkedList_len_spec|]. split; [|split].
  - rewrite (LinkedList_len_spec st' _ _ Hok' Hl'). rewrite length_app. simpl.
    f_equal. lia.
  - intros i k w Hi. split.
    + eapply LinkedList_get_ok; eauto. by rewrite Nat2N.id.
    + eapply (LinkedList_get_ok st' _ _ _ r c k w); eauto.
      rewrite Nat2N.id. by apply lookup_app_l_Some.
  - eapply (LinkedList_get_ok st' _ _ _ r c l v); eauto.
    rewrite Nat2N.id. by rewrite list_lookup_middle.
Qed.

(** X5. Appending a value that is not in the list and then deleting it
    undoes the append: [delete] returns 0 and the heap is the heap before
    the append. *)
Theorem append_delete_restores st a ns v l :
  is_list st (Some a) ns → allocates st [l] → v ∉ ns.*2 →
  ∃ st1 st2, LinkedList_append v (Some a) st = Some (tt, st1) ∧
             LinkedList_delete v (Some a) st1 = Some (0%Z, st2) ∧
             heap st2 = heap st.
Proof.
  intros Hl (Ho & _ & Hf) Hv. apply Forall_cons in Hf as [[Hfl Hvl] _].
  destruct (oracle st) as [|x o] eqn:Hor; [done|]. simpl in Ho. injection Ho as ->.
  pose proof (append_heap_is_list st a ns v l o Hl Hfl) as Hl'.
  eexists _, _. split; [by apply LinkedList_append_ok|].
  split; [by apply (LinkedList_delete_found _ a ns l v [])|].
  cbn. by apply delete_append_heap.
Qed.

(** X6. After the deletion of the element at position [p], the first one
    equal to the value, [get] returns the elements before [p] at their
    index and every later element at its index less one. *)
Theorem delete_shifts_indices st a pre l v post r c :
  heap_ok (heap st) → is_list st (Some a) (pre ++ (l, v) :: post) →
  v ∉ pre.*2 → heap st !! r = Some (OVar c) →
  ∃ st', LinkedList_delete v (Some a) st = Some (0%Z, st') ∧
         (∀ i k w, pre !! i = Some (k, w) →
            LinkedList_get (N.of_nat i) (Some a) (Some r) st'
              = Some (GOT_OK, set_heap (<[r := OVar (Some w)]> (heap st')) st')) ∧
         (∀ i k w, post !! i = Some (k, w) →
            LinkedList_get (N.of_nat (length pre + 1 + i)) (Some a) (Some r) st
              = Some (GOT_OK, set_heap (<[r := OVar (Some w)]> (heap st)) st) ∧
            LinkedList_get (N.of_nat (length pre + i)) (Some a) (Some r) st'
              = Some (GOT_OK, set_heap (<[r := OVar (Some w)]> (heap st')) st')).
Proof.
  intros Hok Hl Hv Hr.
  pose proof (delete_heap_is_list _ _ _ _ _ _ Hl) as Hl'.
  pose proof (delete_heap_ok _ _ _ _ _ _ Hok Hl) as Hok'.
  set (st' := set_heap (delete_heap a pre l post (heap st)) st) in *.
  assert (heap st' !! r = Some (OVar c)) as Hr'.
  { subst st'. cbn. destruct (var_off_list _ _ _ _ _ Hl Hr) as [Hra Hrn].
    rewrite fmap_app in Hrn. simpl in Hrn.
    apply not_elem_of_app in Hrn as [Hrpre Hrn].
    apply not_elem_of_cons in Hrn as [Hrl _]. rewrite delete_heap_frame; [done|done|].
    destruct (last pre) as [[lp vp]|] eqn:Hlast; simpl; [|done].
    intros ->. apply Hrpre. apply last_Some in Hlast as [pre0 ->].
    rewrite fmap_app. apply elem_of_app. right. left. }
  exists st'. split; [by apply LinkedList_delete_found|]. split.
  - intros i k w Hi. eapply (LinkedList_get_ok st' _ _ _ r c k w); eauto.
    rewrite Nat2N.id. by apply lookup_app_l_Some.
  - intros i k w Hi. split.
    + eapply (LinkedList_get_ok st _ _ _ r c k w); eauto. rewrite Nat2N.id.
      rewrite lookup_app_r by lia.
      replace (length pre + 1 + i - length pre)%nat with (S i) by lia. done.
    + eapply (LinkedList_get_ok st' _ _ _ r c k w); eauto. rewrite Nat2N.id.
      rewrite lookup_app_r by lia.
      replace (length pre + i - length pre)%nat with i by lia. done.
Qed.

(** X7. [get] succeeds at exactly the indices below what [len] returns. *)
Theorem get_ok_iff_below_len st list ns r c :
  heap_ok (heap st) → is_list st list ns → heap st !! r = Some (OVar c) →
  ∃ n, LinkedList_len list st = Some n ∧
       ∀ index, fst <$> LinkedList_get index list (Some r) st = Some GOT_OK
                ↔ (index < n)%N.
Proof.
  intros Hok Hl Hr. exists (N.of_nat (length ns)).
  split; [by apply LinkedList_len_spec|]. intros index.
  rewrite (LinkedList_get_spec _ _ ns) by done. unfold get_outcome.
  destruct ns as [|n0 ns']; [simpl; split; [done|lia]|].
  destruct ((n0 :: ns') !! N.to_nat index) as [[l w]|] eqn:Hi.
  - apply lookup_lt_Some in Hi. unfold store_var. cbn [mbind option_bind].
    rewrite Hr. split; [intros _; lia|reflexivity].
  - apply lookup_ge_None in Hi. split; [discriminate|lia].
Qed.

(** X8. The counter of [len] does not wrap: for every list in a heap of
    valid addresses [len] returns the number of nodes, which is below
    [2 ^ size_bits]. *)
Theorem len_exact_no_overflow st list ns :
  heap_ok (heap st) → is_list st list ns →
  LinkedList_len list st = Some (N.of_nat (length ns)) ∧
  (N.of_nat (length ns) < 2 ^ size_bits)%N.
Proof.
  intros Hok Hl. split; [by apply LinkedList_len_spec|].
  eapply chain_length_bound; [done|by eapply is_list_chain].
Qed.

(** X9. Lists that share no node do not disturb each other: [append] to,
    [delete] from and [free] of one list leave the other list as it was,
    and after [append] and [delete] the two lists still share no node. *)
Theorem other_list_untouched st a b nsa nsb :
  a ≠ b → is_list st (Some a) nsa → is_list st (Some b) nsb →
  (∀ k, k ∈ nsa.*1 → k ∉ nsb.*1) → malloc_ok st →
  (∀ v, ∃ st' nsa',
     LinkedList_append v (Some a) st = Some (tt, st') ∧
     is_list st' (Some a) nsa' ∧ is_list st' (Some b) nsb ∧
     (∀ k, k ∈ nsa'.*1 → k ∉ nsb.*1)) ∧
  (∀ v, ∃ rc st' nsa',
     LinkedList_delete v (Some a) st = Some (rc, st') ∧
     is_list st' (Some a) nsa' ∧ is_list st' (Some b) nsb ∧
     (∀ k, k ∈ nsa'.*1 → k ∉ nsb.*1)) ∧
  (∃ st', LinkedList_free (Some a) st = Some (tt, st') ∧
          is_list st' (Some b) nsb).
Proof.
  intros Hab Hla Hlb Hdisj Hm.
  pose proof (is_list_chain _ _ _ Hla) as Hca.
  pose proof (is_list_chain _ _ _ Hlb) as Hcb.
  pose proof Hla as (a' & [= <-] & Ha & _).
  pose proof Hlb as (b' & [= <-] & Hb & _).
  assert (a ∉ nsb.*1) as Hanb.
  { eapply chain_not_node; [done|]. intros ??. congruence. }
  assert (b ∉ nsa.*1) as Hbna.
  { eapply chain_not_node; [done|]. intros ??. congruence. }
  assert (∀ k, k ∈ nsb.*1 → k ∉ nsa.*1) as Hdisj'.
  { intros k Hkb Hka. by apply (Hdisj k). }
  split; [|split].
  - intros v. unfold malloc_ok in Hm.
    destruct (oracle st) as [|[l|] o] eqn:Hor.
    + exists (State (heap st) (tail (oracle st))), nsa.
      split; [eapply LinkedList_append_fail; [done|]|].
      { unfold malloc_fails. by rewrite Hor. }
      split; [by exists a|]. split; [by exists b|done].
    + destruct Hm as [Hfl Hvl]. eexists _, _.
      split; [by apply LinkedList_append_ok|].
      split; [by apply append_heap_is_list|].
      assert (l ∉ nsb.*1) as Hlnb.
      { intros Hin. destruct (chain_allocated _ _ _ Hcb Hin). congruence. }
      split.
      * eapply is_list_agree; [done| |]; cbn.
        -- apply append_heap_frame; [congruence|congruence|done].
        -- intros k Hk. apply append_heap_frame; [by intros ->|by intros ->|auto].
      * intros k. rewrite fmap_app. simpl. intros [Hin|Hin]%elem_of_app; [auto|].
        apply list_elem_of_singleton in Hin as ->. done.
    + exists (State (heap st) (tail (oracle st))), nsa.
      split; [eapply LinkedList_append_fail; [done|]|].
      { unfold malloc_fails. by rewrite Hor. }
      split; [by exists a|]. split; [by exists b|done].
  - intros v. destruct (decide (v ∈ nsa.*2)) as [Hin|Hnin].
    + destruct (first_match_split _ _ Hin) as (pre & l & post & -> & Hpre).
      eexists _, _, _. split; [by apply LinkedList_delete_found|].
      split; [by eapply delete_heap_is_list|].
      rewrite fmap_app in Hdisj, Hdisj', Hbna. simpl in Hdisj, Hdisj', Hbna.
      assert (∀ k, k = b ∨ k ∈ nsb.*1 →
                k ≠ l ∧ k ≠ default a (fst <$> last pre)) as Hoff.
      { intros k Hk. split.
        - intros ->. destruct Hk as [->|Hk].
          + apply Hbna. apply elem_of_app. right. left.
          + apply (Hdisj' l Hk). apply elem_of_app. right. left.
        - destruct (last pre) as [[lp vp]|] eqn:Hlast; simpl.
          + apply last_Some in Hlast as [pre0 ->]. intros ->.
            assert (lp ∈ (pre0 ++ [(lp, vp)]).*1)
              by (rewrite fmap_app; apply elem_of_app; right; left).
            destruct Hk as [->|Hk].
            * apply Hbna. apply elem_of_app. by left.
            * apply (Hdisj' lp Hk). apply elem_of_app. by left.
          + intros ->. destruct Hk as [->|Hk]; done. }
      split.
      * eapply is_list_agree; [done| |]; cbn.
        -- apply delete_heap_frame; apply Hoff; by left.
        -- intros k Hk. apply delete_heap_frame; apply Hoff; by right.
      * intros k. rewrite fmap_app. intros [Hk|Hk]%elem_of_app.
        -- apply Hdisj. apply elem_of_app. by left.
        -- apply Hdisj. apply elem_of_app. right. by right.
    + exists 1%Z, st, nsa. split; [by eapply LinkedList_delete_missing|done].
  - eexists. split; [by apply LinkedList_free_ok|].
    eapply is_list_agree; [done| |]; cbn.
    + rewrite lookup_delete_ne by done. by apply foldl_delete_lookup_ne.
    + intros k Hk. rewrite lookup_delete_ne by (by intros ->).
      apply foldl_delete_lookup_ne. auto.
Qed.

(** X10. [get] writes through [result] on success only: with a [NULL]
    result pointer it still returns its two error codes, and is undefined
    where it would have succeeded. *)
Theorem get_null_result st list ns index :
  heap_ok (heap st) → is_list st list ns →
  (ns = [] → LinkedList_get index list None st = Some (GOT_EMPTY_LIST, st)) ∧
  (ns ≠ [] → (N.of_nat (length ns) ≤ index)%N →
     LinkedList_get index list None st = Some (GOT_OUT_OF_BOUNDS, st)) ∧
  ((index < N.of_nat (length ns))%N → LinkedList_get index list None st = None).
Proof.
  intros Hok Hl. rewrite (LinkedList_get_spec _ _ ns) by done.
  unfold get_outcome. split; [by intros ->|].
  destruct ns as [|n0 ns']; [split; [done|simpl; lia]|].
  set (ns := n0 :: ns') in *. split.
  - intros _ Hle. rewrite lookup_ge_None_2 by lia. done.
  - intros Hlt. assert (N.to_nat index < length ns) as Hlt' by lia.
    by destruct (lookup_lt_is_Some_2 _ _ Hlt') as [[l v] ->].
Qed.

(** X11. [make], then an [append] whose allocation fails, then [get(0)]:
    the list is still empty, [len] returns 0, [get] returns
    [GOT_EMPTY_LIST] and the result variable is as it was. *)
Theorem make_failed_append_get st a v r c :
  heap_ok (heap st) → allocates st [a] →
  malloc_fails (State (heap st) (tail (oracle st))) →
  heap st !! r = Some (OVar c) →
  ∃ st1, make_appends [v] st = Some (Some a, st1) ∧
         is_list st1 (Some a) [] ∧
         LinkedList_len (Some a) st1 = Some 0%N ∧
         LinkedList_get 0 (Some a) (Some r) st1 = Some (GOT_EMPTY_LIST, st1) ∧
         heap st1 !! r = Some (OVar c).
Proof.
  intros Hok (Ho & _ & Hf) Hfail Hr. apply Forall_cons in Hf as [[Hfa Hva] _].
  destruct (oracle st) as [|x o] eqn:Hor; [done|]. simpl in Ho. injection Ho as ->.
  simpl in Hfail. unfold make_appends. rewrite (LinkedList_make_ok st a o) by done.
  set (st0 := State (<[a := OList None]> (heap st)) o).
  assert (is_list st0 (Some a) []) as Hl0 by apply make_is_list.
  assert (heap_ok (heap st0)) as Hok0 by by apply heap_ok_insert.
  simpl. rewrite (LinkedList_append_fail st0 (Some a) [] v) by done.
  cbn [mbind option_bind]. eexists. split; [done|].
  set (st1 := State (heap st0) (tail (oracle st0))).
  assert (is_list st1 (Some a) []) as Hl1.
  { destruct Hl0 as (a' & Ha' & Ha & Hc). by exists a'. }
  split; [done|]. split; [by rewrite (LinkedList_len_spec st1 _ [])|].
  split; [by rewrite (LinkedList_get_spec st1 _ [])|].
  cbn. rewrite lookup_insert_ne; [done|]. congruence.
Qed.

(** X12. The loops have no guard against a cycle: on a list whose nodes
    lead back into themselves, so that no [next] on the way is [NULL],
    the loops of [len] and [append] end for no number of steps, nor does
    the loop of [delete] for a value no node on the way holds; [len],
    [get] and [append] do not return. *)
Theorem cyclic_list_never_returns st (P : loc → Prop) a l :
  (∀ k, P k → ∃ w k', heap st !! k = Some (ONode w (Some k')) ∧ P k') →
  heap st !! a = Some (OList (Some l)) → P l →
  (∀ n acc, len_loop n (Some l) acc st = None) ∧
  (∀ n, append_loop n (Some l) st = None) ∧
  (∀ n v previous,
     (∀ k w nx, P k → heap st !! k = Some (ONode w nx) → w ≠ v) →
     delete_loop n v (Some a) (Some l) previous st = None) ∧
  LinkedList_len (Some a) st = None ∧
  (∀ index result, LinkedList_get index (Some a) result st = None) ∧
  (∀ v, LinkedList_append v (Some a) st = None).
Proof.
  intros Hclosed Ha Hl.
  assert (∀ n k acc, P k → len_loop n (Some k) acc st = None) as Hlen.
  { induction n as [|n IH]; intros k acc Hk; [done|]. simpl.
    destruct (Hclosed k Hk) as (w & k' & Hkn & Hk').
    unfold get_next. cbn [mbind option_bind]. rewrite Hkn. cbn [mbind option_bind].
    by apply IH. }
  assert (∀ n k, P k → append_loop n (Some k) st = None) as Happ.
  { induction n as [|n IH]; intros k Hk; [done|]. simpl.
    destruct (Hclosed k Hk) as (w & k' & Hkn & Hk').
    unfold get_next. cbn [mbind option_bind]. rewrite Hkn. cbn [mbind option_bind].
    by apply IH. }
  assert (get_head (Some a) st = Some (Some l)) as Hhd.
  { unfold get_head. cbn [mbind option_bind]. by rewrite Ha. }
  split; [auto|]. split; [auto|]. split; [|split; [|split]].
  - intros n v previous Hv. clear Ha Hhd. revert l Hl previous.
    induction n as [|n IH]; intros k Hk previous; [done|]. simpl.
    destruct (Hclosed k Hk) as (w & k' & Hkn & Hk').
    unfold get_value, get_next. cbn [mbind option_bind]. rewrite Hkn.
    cbn [mbind option_bind]. rewrite decide_False by by apply (Hv k w (Some k')).
    by apply IH.
  - unfold LinkedList_len. rewrite Hhd. cbn [mbind option_bind]. auto.
  - intros index result. unfold LinkedList_get. rewrite Hhd.
    cbn [mbind option_bind]. unfold LinkedList_len. rewrite Hhd.
    cbn [mbind option_bind]. by rewrite Hlen.
  - intros v. unfold LinkedList_append. rewrite Hhd. cbn [mbind option_bind].
    by rewrite Happ.
Qed.


(** X16. A successful [append] allocates the new node and nothing else:
    the allocated addresses after it are those before it and the one
    [malloc] returned. *)
Theorem append_allocates_one st a ns v l :
  is_list st (Some a) ns → allocates st [l] →
  ∃ st', LinkedList_append v (Some a) st = Some (tt, st') ∧
         dom (heap st') = {[l]} ∪ dom (heap st) ∧
         size (heap st') = S (size (heap st)).
Proof.
  intros Hl (Ho & _ & Hf). apply Forall_cons in Hf as [[Hfl Hvl] _].
  destruct (oracle st) as [|x o] eqn:Hor; [done|]. simpl in Ho. injection Ho as ->.
  eexists. split; [by apply LinkedList_append_ok|]. cbn.
  pose proof (is_list_chain _ _ _ Hl) as Hc.
  destruct Hl as (a' & [= <-] & Ha & _).
  assert (∀ k (o1 o2 : obj T), heap st !! k = Some o1 →
            dom (<[k := o2]> (<[l := ONode v None]> (heap st)))
              = {[l]} ∪ dom (heap st)) as Hdom.
  { intros k o1 o2 Hk. rewrite !dom_insert_L.
    apply subseteq_union_1_L, singleton_subseteq_l, elem_of_union_r, elem_of_dom.
    eauto. }
  assert (dom (append_heap a ns l v (heap st)) = {[l]} ∪ dom (heap st)) as Hd.
  { unfold append_heap. destruct (last ns) as [[lt vt]|] eqn:Hlast.
    - eapply Hdom. by eapply chain_last.
    - by eapply Hdom. }
  split; [done|]. rewrite <-!size_dom, Hd.
  rewrite size_union by (apply disjoint_singleton_l, not_elem_of_dom; done).
  by rewrite size_singleton.
Qed.

(** X17. A [delete] that finds the value frees the removed node and
    nothing else: the allocated addresses after it are those before it
    without that node. *)
Theorem delete_frees_one st a pre l v post :
  is_list st (Some a) (pre ++ (l, v) :: post) → v ∉ pre.*2 →
  ∃ st', LinkedList_delete v (Some a) st = Some (0%Z, st') ∧
         dom (heap st') = dom (heap st) ∖ {[l]} ∧
         S (size (heap st')) = size (heap st).
Proof.
  intros Hl Hv. eexists. split; [by apply LinkedList_delete_found|]. cbn.
  pose proof (is_list_chain _ _ _ Hl) as Hc.
  destruct Hl as (a' & [= <-] & Ha & _).
  assert (heap st !! l = Some (ONode v (first_node post))) as Hlv.
  { apply chain_app_r in Hc. by destruct Hc. }
  assert (∀ k (o1 o2 : obj T), heap st !! k = Some o1 →
            dom (delete l (<[k := o2]> (heap st))) = dom (heap st) ∖ {[l]}) as Hdom.
  { intros k o1 o2 Hk. rewrite dom_delete_L, dom_insert_L. f_equal.
    apply subseteq_union_1_L, singleton_subseteq_l, elem_of_dom. eauto. }
  assert (dom (delete_heap a pre l post (heap st)) = dom (heap st) ∖ {[l]}) as Hd.
  { unfold delete_heap. destruct (last pre) as [[lp vp]|] eqn:Hlast.
    - apply last_Some in Hlast as [pre0 ->]. rewrite <-app_assoc in Hc.
      apply chain_app_r in Hc. destruct Hc as [Hp _]. by eapply Hdom.
    - by eapply Hdom. }
  split; [done|]. rewrite <-!size_dom, Hd.
  assert (l ∈ dom (heap st)) as Hin by (apply elem_of_dom; eauto).
  pose proof (size_union_alt {[l]} (dom (heap st))) as Hsz.
  rewrite size_singleton in Hsz.
  rewrite (subseteq_union_1_L {[l]} (dom (heap st))) in Hsz
    by by apply singleton_subseteq_l.
  lia.
Qed.

End Further.

(** ** Further properties of main.c *)

Section MainFurther.
Context {PF : Platform}.

(** X14. When both allocations succeed [main] prints 0 and 12 and gives
    back all the memory it took: the heap after it is the heap before. *)
Theorem main_restores_heap (st : state Z) (r a l : loc) :
  heap_ok (heap st) → valid_addr r → heap st !! r = None →
  allocates (declare r st) [a; l] →
  ∃ st', main r st = Some ([0%Z; 12%Z], st') ∧ heap st' = heap st.
Proof.
  intros Hok Hr Hrf Hal.
  assert (heap_ok (heap (declare r st))) as Hok0 by by apply heap_ok_insert.
  destruct (make_appends_ok [12%Z] (declare r st) a [l] Hok0 Hal eq_refl)
    as (st1 & Hrun & Hok1 & Hl1 & Hfr).
  assert (heap st1 !! r = Some (OVar None)) as Hr1.
  { apply Hfr. cbn. by rewrite lookup_insert_eq. }
  pose proof (LinkedList_get_ok st1 (Some a) _ 0%N r None l 12%Z Hok1 Hl1 Hr1 eq_refl)
    as Hget.
  set (st2 := set_heap (<[r := OVar (Some 12%Z)]> (heap st1)) st1) in *.
  assert (load_var (Some r) st2 = Some 12%Z) as Hload.
  { unfold load_var. cbn. by rewrite lookup_insert_eq. }
  pose proof (is_list_store_var _ _ _ _ _ (Some 12%Z) Hl1 Hr1) as Hl2.
  pose proof (LinkedList_free_ok _ _ _ Hl2) as Hfree. fold st2 in Hfree.
  destruct (var_off_list _ _ _ _ _ Hl1 Hr1) as [Hra Hrl]. simpl in Hrl.
  apply not_elem_of_cons in Hrl as [Hrl _].
  (* what the appends left of the heap *)
  destruct Hal as (Ho & Hnd & Hf).
  apply NoDup_cons in Hnd as [Hnal _]. apply not_elem_of_cons in Hnal as [Hnal _].
  apply Forall_cons in Hf as [[Hfa _] Hf]. apply Forall_cons in Hf as [[Hfl Hvl] _].
  cbn in Hfa, Hfl.
  assert (∀ k, k ≠ a → k ≠ l → heap st1 !! k = <[r := OVar None]> (heap st) !! k)
    as Hframe.
  { intros k Hka Hkl. unfold make_appends in Hrun.
    destruct (oracle (declare r st)) as [|x o] eqn:Hor; [done|].
    simpl in Ho. injection Ho as -> Ho.
    rewrite (LinkedList_make_ok (declare r st) a o) in Hrun by done.
    set (st0 := State (<[a := OList None]> (heap (declare r st))) o) in *.
    destruct (appends [12%Z] (Some a) st0) as [st1'|] eqn:Happ; [|done].
    simpl in Hrun. injection Hrun as ->.
    rewrite (appends_frame [12%Z] st0 st1 a [] [l] (make_is_list _ _ _)); try done.
    - subst st0. cbn. by rewrite lookup_insert_ne.
    - split; [by destruct o as [|? ?]; simplify_eq/=|].
      split; [apply NoDup_singleton|]. apply Forall_singleton.
      split; [|done].
      subst st0. cbn. by rewrite lookup_insert_ne.
    - apply not_elem_of_nil.
    - apply not_elem_of_cons. split; [done|apply not_elem_of_nil]. }
  eexists. split.
  - unfold main. unfold make_appends in Hrun.
    destruct (LinkedList_make (declare r st)) as [ll s0]. simpl in Hrun.
    destruct (LinkedList_append 12%Z ll s0) as [[[] s1]|]; simpl in Hrun; [|done].
    injection Hrun as -> ->. cbn [mbind option_bind].
    rewrite Hget. cbn [mbind option_bind]. rewrite Hload. cbn [mbind option_bind].
    rewrite Hfree. done.
  - cbn. apply map_eq. intros k.
    destruct (decide (k = r)) as [->|Hkr]; [by rewrite lookup_delete_eq|].
    rewrite lookup_delete_ne by done.
    destruct (decide (k = a)) as [->|Hka].
    { rewrite lookup_delete_eq. rewrite lookup_insert_ne in Hfa by done. done. }
    rewrite lookup_delete_ne by done.
    destruct (decide (k = l)) as [->|Hkl].
    { rewrite lookup_delete_eq. rewrite lookup_insert_ne in Hfl by done. done. }
    rewrite lookup_delete_ne by done. rewrite lookup_insert_ne by done.
    rewrite Hframe by done. by rewrite lookup_insert_ne.
Qed.

(** X15. [main] does not test what [make] returns: when the allocation of
    the list fails, [append] dereferences [NULL] and [main] has no defined
    result. *)
Theorem main_list_allocation_fails (st : state Z) (r : loc) :
  malloc_fails st → main r st = None.
Proof.
  intros Hf. unfold main, LinkedList_make, malloc, malloc_fails, declare in *.
  cbn. by destruct (oracle st) as [|[x|] o].
Qed.

End MainFurther.

(** ** The further properties at concrete states *)

Section FurtherConcrete.
#[local] Existing Instance LP64.

Local Ltac holds := by apply (bool_decide_unpack _); vm_compute.

Lemma free_releases_all_witness :
  ∃ st', LinkedList_free (Some 1%N) st_abc = Some (tt, st') ∧
         heap st' !! 1%N = None ∧ heap st' !! 3%N = None ∧
         heap st' !! 9%N = Some (OVar None).
Proof.
  destruct (free_releases_all st_abc 1%N [(2%N, 10%Z); (3%N, 20%Z); (4%N, 30%Z)])
    as (st' & Hfree & Ha & Hn & Hk & _); [holds|].
  exists st'. split; [assumption|]. split; [assumption|]. split.
  - apply Hn. holds.
  - rewrite Hk; [reflexivity|discriminate|holds].
Defined.

Lemma make_appends_free_restores_witness :
  ∃ st1 st2, make_appends [10; 20; 30]%Z st_fresh = Some (Some 1%N, st1) ∧
             LinkedList_free (Some 1%N) st1 = Some (tt, st2) ∧
             heap st2 = heap st_fresh.
Proof.
  apply (make_appends_free_restores st_fresh [10; 20; 30]%Z 1%N [2; 3; 4]%N);
    [holds|holds|reflexivity].
Defined.

Lemma failed_append_invisible_witness :
  ∃ st', LinkedList_append 40%Z (Some 1%N) st_oom = Some (tt, st') ∧
         LinkedList_len (Some 1%N) st' = LinkedList_len (Some 1%N) st_oom.
Proof.
  destruct (failed_append_invisible st_oom (Some 1%N)
              [(2%N, 10%Z); (3%N, 20%Z); (4%N, 30%Z)] 40%Z)
    as (st' & Ha & Hlen & _); [holds|holds|holds|].
  exists st'. split; assumption.
Defined.

Lemma append_extends_witness :
  ∃ st', LinkedList_append 40%Z (Some 1%N) st_abc = Some (tt, st') ∧
         LinkedList_len (Some 1%N) st_abc = Some 3%N ∧
         LinkedList_len (Some 1%N) st' = Some 4%N ∧
         LinkedList_get 3 (Some 1%N) (Some 9%N) st'
           = Some (GOT_OK, set_heap (<[9%N := OVar (Some 40%Z)]> (heap st')) st').
Proof.
  destruct (append_extends st_abc 1%N [(2%N, 10%Z); (3%N, 20%Z); (4%N, 30%Z)]
              40%Z 5%N 9%N None)
    as (st' & Ha & Hlen & Hlen' & _ & Hget); [holds|holds|holds|reflexivity|].
  exists st'. split; [assumption|]. split; [assumption|]. split; assumption.
Defined.

Lemma append_delete_restores_witness :
  ∃ st1 st2, LinkedList_append 40%Z (Some 1%N) st_abc = Some (tt, st1) ∧
             LinkedList_delete 40%Z (Some 1%N) st1 = Some (0%Z, st2) ∧
             heap st2 = heap st_abc.
Proof.
  apply (append_delete_restores st_abc 1%N [(2%N, 10%Z); (3%N, 20%Z); (4%N, 30%Z)]
           40%Z 5%N); [holds|holds|holds].
Defined.

Lemma delete_shifts_indices_witness :
  ∃ st', LinkedList_delete 10%Z (Some 1%N) st_abc = Some (0%Z, st') ∧
         LinkedList_get 1 (Some 1%N) (Some 9%N) st_abc
           = Some (GOT_OK, set_heap (<[9%N := OVar (Some 20%Z)]> (heap st_abc)) st_abc) ∧
         LinkedList_get 0 (Some 1%N) (Some 9%N) st'
           = Some (GOT_OK, set_heap (<[9%N := OVar (Some 20%Z)]> (heap st')) st').
Proof.
  destruct (delete_shifts_indices st_abc 1%N [] 2%N 10%Z
              [(3%N, 20%Z); (4%N, 30%Z)] 9%N None)
    as (st' & Hd & _ & Hpost); [holds|holds|holds|reflexivity|].
  exists st'. split; [assumption|]. apply (Hpost 0%nat 3%N 20%Z). reflexivity.
Defined.

Lemma get_ok_iff_below_len_witness :
  ∃ n, LinkedList_len (Some 1%N) st_abc = Some n ∧
       (fst <$> LinkedList_get 2 (Some 1%N) (Some 9%N) st_abc = Some GOT_OK
        ↔ (2 < n)%N).
Proof.
  destruct (get_ok_iff_below_len st_abc (Some 1%N)
              [(2%N, 10%Z); (3%N, 20%Z); (4%N, 30%Z)] 9%N None)
    as (n & Hlen & Hiff); [holds|holds|reflexivity|].
  exists n. split; [assumption|apply Hiff].
Defined.

Lemma len_exact_no_overflow_witness :
  LinkedList_len (Some 1%N) st_abc = Some 3%N ∧ (3 < 2 ^ 64)%N.
Proof.
  destruct (len_exact_no_overflow st_abc (Some 1%N)
              [(2%N, 10%Z); (3%N, 20%Z); (4%N, 30%Z)]) as [Hlen Hlt]; [holds|holds|].
  split; [exact Hlen|exact Hlt].
Defined.

Lemma other_list_untouched_witness :
  ∃ st', LinkedList_free (Some 1%N) st_two = Some (tt, st') ∧
         is_list st' (Some 6%N) [(7%N, 50%Z); (8%N, 60%Z)].
Proof.
  destruct (other_list_untouched st_two 1%N 6%N [(2%N, 10%Z)]
              [(7%N, 50%Z); (8%N, 60%Z)]) as (_ & _ & Hfree);
    [discriminate|holds|holds| |holds|exact Hfree].
  intros k Hk. apply list_elem_of_singleton in Hk as ->. holds.
Defined.

Lemma get_null_result_witness :
  LinkedList_get 5 (Some 1%N) None st_abc = Some (GOT_OUT_OF_BOUNDS, st_abc) ∧
  LinkedList_get 1 (Some 1%N) None st_abc = None.
Proof.
  destruct (get_null_result st_abc (Some 1%N)
              [(2%N, 10%Z); (3%N, 20%Z); (4%N, 30%Z)] 5%N) as (_ & Hoob & _);
    [holds|holds|].
  destruct (get_null_result st_abc (Some 1%N)
              [(2%N, 10%Z); (3%N, 20%Z); (4%N, 30%Z)] 1%N) as (_ & _ & Hnull);
    [holds|holds|].
  split; [apply Hoob; [discriminate|by vm_compute]|apply Hnull; reflexivity].
Defined.

Lemma make_failed_append_get_witness :
  ∃ st1, make_appends [12%Z] st_one_alloc = Some (Some 1%N, st1) ∧
         LinkedList_get 0 (Some 1%N) (Some 9%N) st1 = Some (GOT_EMPTY_LIST, st1).
Proof.
  destruct (make_failed_append_get st_one_alloc 1%N 12%Z 9%N None)
    as (st1 & Hrun & _ & _ & Hget & _); [holds|holds|holds|reflexivity|].
  exists st1. split; assumption.
Defined.

Lemma cyclic_list_never_returns_witness :
  LinkedList_len (Some 1%N) st_loop = None ∧
  ∀ n, len_loop n (Some 2%N) 0 st_loop = None.
Proof.
  destruct (cyclic_list_never_returns st_loop (λ k, k = 2%N ∨ k = 3%N) 1%N 2%N)
    as (Hloop & _ & _ & Hlen & _).
  - intros k [->| ->].
    + exists 7%Z, 3%N. split; [reflexivity|by right].
    + exists 8%Z, 2%N. split; [reflexivity|by left].
  - reflexivity.
  - by left.
  - split; [assumption|]. intros n. apply Hloop.
Defined.


Lemma append_allocates_one_witness :
  ∃ st', LinkedList_append 40%Z (Some 1%N) st_abc = Some (tt, st') ∧
         size (heap st') = 6%nat.
Proof.
  destruct (append_allocates_one st_abc 1%N [(2%N, 10%Z); (3%N, 20%Z); (4%N, 30%Z)]
              40%Z 5%N) as (st' & Ha & _ & Hsz); [holds|holds|].
  exists st'. split; [assumption|exact Hsz].
Defined.

Lemma delete_frees_one_witness :
  ∃ st', LinkedList_delete 20%Z (Some 1%N) st_abc = Some (0%Z, st') ∧
         dom (heap st') = dom (heap st_abc) ∖ {[3%N]}.
Proof.
  destruct (delete_frees_one st_abc 1%N [(2%N, 10%Z)] 3%N 20%Z [(4%N, 30%Z)])
    as (st' & Hd & Hdom & _); [holds|holds|].
  exists st'. split; assumption.
Defined.

Lemma main_restores_heap_witness :
  ∃ st', main 9%N st_start = Some ([0%Z; 12%Z], st') ∧ heap st' = ∅.
Proof.
  apply (main_restores_heap st_start 9%N 1%N 2%N); [holds|holds|reflexivity|holds].
Defined.

Lemma main_list_allocation_fails_witness : main 9%N st_no_alloc = None.
Proof. apply (main_list_allocation_fails st_no_alloc 9%N). holds. Defined.

End FurtherConcrete.
